(** * evm-vanity-gen: the parallel vanity-address search of [index.js]

    A shallow embedding of the three parts of [index.js] that carry the
    search: the validation and normalisation of the pattern in the main
    thread, the key generation loop of a worker thread, and the message
    handler with which the main thread aggregates ticks and accepts a
    match.  Around them, the parsing of the command line ([parseArgs]),
    the functions that draw the boxes ([stripAnsi], [pad], [drawLine],
    [drawRow]) and the text of the probability are modelled as well.

    Modelling conventions.
    - JavaScript strings are [string]s.  Every string the program compares
      or lower-cases is ASCII by then (a validated hexadecimal pattern, or
      an address made by the key library), and a character beyond ASCII in
      a command line argument is in no case a hexadecimal digit.
    - Counters and millisecond clock readings are integer valued JavaScript
      numbers and are modelled in [Z]; the remainder [%] is [Z.rem].
    - The statistics are modelled on the kernel's binary64 floats, the
      numbers of the program; the built-in [Math.exp] is a parameter.
    - The standard output may or may not be a terminal; the handler is
      modelled for both.
    - The key library ([generatePrivateKey], [privateKeyToAccount]) is the
      list of accounts it hands out, one for each turn of the loop until
      the thread is terminated from outside.
    - Built-in functions whose result is a matter of number formatting or
      parsing ([parseInt], [toFixed]) are parameters of the functions that
      call them. *)

From Stdlib Require Import Bool List ZArith Lia Ascii String.
From Stdlib Require Import Floats.
Import ListNotations.

(* 0.9999 is read as the nearest binary64 number, as JavaScript reads it. *)
Set Warnings "-inexact-float".

Local Open Scope string_scope.

(** ** Strings as the program uses them *)

Module JsString.

(** [!s] for a string [s]: only the empty string is falsy. *)
Definition falsy (s : string) : bool :=
  match s with
  | EmptyString => true
  | String _ _ => false
  end.

Definition inRange (lo hi c : ascii) : bool :=
  (Ascii.leb lo c && Ascii.leb c hi)%bool.

(** The character class [[0-9a-fA-F]]. *)
Definition isHexChar (c : ascii) : bool :=
  (inRange "0" "9" c || inRange "a" "f" c || inRange "A" "F" c)%bool.

Fixpoint allHex (s : string) : bool :=
  match s with
  | EmptyString => true
  | String c r => (isHexChar c && allHex r)%bool
  end.

(** [/^[0-9a-fA-F]+$/.test(s)]: one hexadecimal digit or more, and
    nothing else, from the first character to the last. *)
Definition testHex (s : string) : bool :=
  (negb (falsy s) && allHex s)%bool.

Definition lowerChar (c : ascii) : ascii :=
  if inRange "A" "Z" c then ascii_of_N (N_of_ascii c + 32) else c.

(** [s.toLowerCase()]. *)
Fixpoint toLowerCase (s : string) : string :=
  match s with
  | EmptyString => EmptyString
  | String c r => String (lowerChar c) (toLowerCase r)
  end.

(** [s.startsWith(search)]: [search] is read off the front of [s]. *)
Fixpoint startsWith (s search : string) {struct search} : bool :=
  match search with
  | EmptyString => true
  | String c search' =>
      match s with
      | EmptyString => false
      | String d s' => (Ascii.eqb d c && startsWith s' search')%bool
      end
  end.

(** [s.slice(n)] for [0 <= n]: the string without its first [n]
    characters. *)
Fixpoint slice (n : nat) (s : string) : string :=
  match n with
  | O => s
  | S n' =>
      match s with
      | EmptyString => EmptyString
      | String _ r => slice n' r
      end
  end.

(** [s.endsWith(search)]: with [start = s.length - search.length], false
    when [start < 0], else whether [search] is what [s] holds from
    [start] on. *)
Definition endsWith (s search : string) : bool :=
  if Nat.ltb (String.length s) (String.length search) then false
  else String.eqb (slice (String.length s - String.length search) s) search.

End JsString.

Import JsString.

(** The twenty-two characters of [[0-9a-fA-F]], written out: the reading of
    the character class against which [isHexChar] is checked. *)
Definition hexDigits : list ascii :=
  list_ascii_of_string "0123456789abcdefABCDEF".

(** ** The main thread: validation and normalisation of the pattern *)

Inductive ValidationError : Type :=
| Empty       (* "Error: Provide -p <prefix> or -s <suffix>" *)
| InvalidHex. (* "Error: Invalid hex (0-9, a-f only)" *)

(** What [parseArgs] returns, as far as the search reads it. *)
Record Config : Type := mkConfig {
  cfg_prefix : string;
  cfg_suffix : string;
  caseSensitive : bool;
  threads : nat;
  showHelp : bool
}.

(** The [workerData] every worker thread is created with. *)
Record WorkerData : Type := mkWorkerData {
  prefix : string;
  suffix : string;
  isCaseSensitive : bool
}.

Record PatternSpec : Type := mkPatternSpec {
  data : WorkerData;
  totalHexChars : nat
}.

(** Lines 112 to 128: the two checks, in the order the program makes them,
    then the normalisation. *)
Definition build (prefix_raw suffix_raw : string) (case_sensitive : bool)
  : ValidationError + PatternSpec :=
  let fullPattern := prefix_raw ++ suffix_raw in
  if falsy fullPattern then inl Empty
  else if negb (testHex fullPattern) then inl InvalidHex
  else
    let targetPrefix := if case_sensitive then prefix_raw else toLowerCase prefix_raw in
    let targetSuffix := if case_sensitive then suffix_raw else toLowerCase suffix_raw in
    let cleanPrefix :=
      if startsWith targetPrefix "0x" then slice 2 targetPrefix else targetPrefix in
    inr (mkPatternSpec (mkWorkerData cleanPrefix targetSuffix case_sensitive)
           (String.length cleanPrefix + String.length targetSuffix)).

(** How the main thread leaves its start-up code: through one of the three
    [process.exit] calls, or with its worker threads created. *)
Inductive Startup : Type :=
| ExitHelp
| ExitError (e : ValidationError)
| Spawned (p : PatternSpec) (workers : list WorkerData).

Definition main_start (config : Config) : Startup :=
  if showHelp config then ExitHelp
  else
    match build (cfg_prefix config) (cfg_suffix config) (caseSensitive config) with
    | inl e => ExitError e
    | inr p => Spawned p (repeat (data p) (threads config))
    end.

Definition exit_code (s : Startup) : option Z :=
  match s with
  | ExitHelp => Some 0%Z
  | ExitError _ => Some 1%Z
  | Spawned _ _ => None
  end.

Definition workers_started (s : Startup) : list WorkerData :=
  match s with
  | Spawned _ ws => ws
  | _ => []
  end.

(** ** A worker thread *)

Local Open Scope list_scope.

(** One turn's key material: [pk = generatePrivateKey()] and the address
    of [privateKeyToAccount(pk)], which the key library gives in its mixed
    case checksum form. *)
Record Account : Type := mkAccount {
  pk : string;
  address : string
}.

(** The two kinds of message a worker posts to the main thread. *)
Inductive Message : Type :=
| found (msg_address msg_pk : string) (attempts : Z)
| tick (count : Z).

Definition BATCH_SIZE : Z := 2000.

(** [addr]: the address as the comparison sees it. *)
Definition addr_of (w : WorkerData) (account : Account) : string :=
  if isCaseSensitive w then address account else toLowerCase (address account).

Definition isPrefixMatch (w : WorkerData) (addr : string) : bool :=
  (falsy (prefix w) || startsWith addr ("0x" ++ prefix w)%string)%bool.

Definition isSuffixMatch (w : WorkerData) (addr : string) : bool :=
  (falsy (suffix w) || endsWith addr (suffix w))%bool.

Definition isMatch (w : WorkerData) (account : Account) : bool :=
  (isPrefixMatch w (addr_of w account) && isSuffixMatch w (addr_of w account))%bool.

(** One turn of the [while (true)] loop, lines 216 to 237: the messages it
    posts, in order, and the value of [localCount] it leaves. *)
Definition iteration (w : WorkerData) (localCount : Z) (account : Account)
  : list Message * Z :=
  let addr := addr_of w account in
  let localCount := (localCount + 1)%Z in
  let posted :=
    if (isPrefixMatch w addr && isSuffixMatch w addr)%bool
    then [found (address account) (pk account) localCount]
    else [] in
  if (Z.rem localCount BATCH_SIZE =? 0)%Z
  then (posted ++ [tick BATCH_SIZE], 0%Z)
  else (posted, localCount).

(** The loop over the accounts generated until the thread is terminated. *)
Fixpoint worker (w : WorkerData) (localCount : Z) (accounts : list Account)
  : list Message * Z :=
  match accounts with
  | [] => ([], localCount)
  | account :: rest =>
      let (posted, localCount') := iteration w localCount account in
      let (later, final) := worker w localCount' rest in
      (posted ++ later, final)
  end.

Definition is_found (m : Message) : bool :=
  match m with
  | found _ _ _ => true
  | tick _ => false
  end.

Definition is_tick (m : Message) : bool := negb (is_found m).

(** ** The main thread's message handler *)

(** What the handler writes: the success box of a match, or a refreshed
    status line, each recorded with the numbers its text is made from (the
    box shows [formatNum] of [scanned]).  Times are in milliseconds since
    [startTime]. *)
Inductive Output : Type :=
| on_found (out_address out_pk : string) (timeSpent : Z) (scanned : Z)
| on_progress (elapsed_ms : Z) (scanned : Z).

Record Main : Type := mkMain {
  totalCount : Z;
  lastLog : Z;
  printed : list Output;
  terminated : bool;     (* [workers.forEach(w => w.terminate())] has run *)
  exited : option Z      (* the exit code, once the process has ended *)
}.

Definition main_init : Main := mkMain 0 0 [] false None.

(** The callback of [worker.on('message', ...)], lines 156 to 207, run
    with [Date.now()] reading [now].  [isTTY] says whether the standard
    output is a terminal.  [process.stdout.clearLine] and [cursorTo] exist
    only on a terminal: without one the calls of lines 161 and 197 throw a
    [TypeError] that nothing catches, and the process ends with exit code
    1, after the count has been added but before anything is written and
    before the workers are terminated. *)
Definition on_message (isTTY : bool) (startTime now : Z) (msg : Message) (st : Main)
  : Main :=
  match msg with
  | found a p attempts =>
      let total := (totalCount st + attempts)%Z in
      if isTTY
      then mkMain total (lastLog st)
             (printed st ++ [on_found a p (now - startTime) total]) true (Some 0%Z)
      else mkMain total (lastLog st) (printed st) (terminated st) (Some 1%Z)
  | tick count =>
      let total := (totalCount st + count)%Z in
      if (100 <? now - lastLog st)%Z
      then if isTTY
           then mkMain total now
                  (printed st ++ [on_progress (now - startTime) total])
                  (terminated st) (exited st)
           else mkMain total (lastLog st) (printed st) (terminated st) (Some 1%Z)
      else mkMain total (lastLog st) (printed st) (terminated st) (exited st)
  end.

(** The event loop of the main thread: messages are handled one at a time,
    in the order they arrive, each with the clock reading of its callback.
    Once the process has ended no later message is handled. *)
Fixpoint drain (isTTY : bool) (startTime : Z) (arrivals : list (Z * Message))
    (st : Main) : Main :=
  match arrivals with
  | [] => st
  | (now, msg) :: rest =>
      match exited st with
      | Some _ => st
      | None => drain isTTY startTime rest (on_message isTTY startTime now msg st)
      end
  end.

Definition is_on_found (o : Output) : bool :=
  match o with
  | on_found _ _ _ _ => true
  | on_progress _ _ => false
  end.

Definition found_arrival (a : Z * Message) : bool := is_found (snd a).

(** No [found] message is among the arrivals. *)
Definition no_found (arrivals : list (Z * Message)) : Prop :=
  forall a, In a arrivals -> found_arrival a = false.

(** What a message adds to [totalCount]. *)
Definition msg_count (m : Message) : Z :=
  match m with
  | found _ _ attempts => attempts
  | tick count => count
  end.

(** The arrivals that get handled on a terminal: all up to the first
    [found] message, and that message. *)
Fixpoint handled (arrivals : list (Z * Message)) : list (Z * Message) :=
  match arrivals with
  | [] => []
  | (now, msg) :: rest =>
      (now, msg) :: (if is_found msg then [] else handled rest)
  end.

(** The arrivals that get handled without a terminal: all up to the first
    one at which the handler goes to write, a [found] message or a tick
    that comes more than 100 ms after [lastLog]. *)
Fixpoint handled_off (lastLog : Z) (arrivals : list (Z * Message))
  : list (Z * Message) :=
  match arrivals with
  | [] => []
  | (now, msg) :: rest =>
      (now, msg)
      :: (if (is_found msg || (100 <? now - lastLog)%Z)%bool then []
          else handled_off lastLog rest)
  end.

Definition sumZ (l : list Z) : Z := fold_right Z.add 0%Z l.

(** The times, since [startTime], at which the status line was written. *)
Definition progress_times (out : list Output) : list Z :=
  flat_map (fun o => match o with
                     | on_progress elapsed_ms _ => [elapsed_ms]
                     | on_found _ _ _ _ => []
                     end) out.

(** Each time lies more than [gap] after the one before it. *)
Fixpoint spaced (gap : Z) (times : list Z) : Prop :=
  match times with
  | [] => True
  | t1 :: rest =>
      match rest with
      | [] => True
      | t2 :: _ => (gap < t2 - t1)%Z /\ spaced gap rest
      end
  end.

(** What the handler keeps true of the status line: its writes are spaced,
    and [lastLog] is the clock reading of the last one. *)
Definition throttled (startTime : Z) (st : Main) : Prop :=
  spaced 100 (progress_times (printed st))
  /\ (progress_times (printed st) = []
      \/ last (progress_times (printed st)) 0 = lastLog st - startTime)%Z.

(** ** The statistics of the status line *)

Module Stats.

(** An integer valued number as a binary64 float (exact below [2^53]). *)
Definition float_of_Z (z : Z) : float :=
  match z with
  | Z0 => 0%float
  | Zpos _ => PrimFloat.of_uint63 (Uint63.of_Z z)
  | Zneg p => (- PrimFloat.of_uint63 (Uint63.of_Z (Zpos p)))%float
  end.

(** [(now - startTime) / 1000] *)
Definition elapsed (now startTime : Z) : float :=
  (float_of_Z (now - startTime) / 1000)%float.

(** [totalCount / elapsed] *)
Definition speed (totalCount elapsed : float) : float :=
  (totalCount / elapsed)%float.

(** The branch of [speedStr]: [speed > 1000]. *)
Definition speed_in_thousands (speed : float) : bool :=
  PrimFloat.ltb 1000%float speed.

(** Line 184 alone, on binary64: the clamp of whatever number line 183
    has left in [prob]. *)
Definition clamp (prob : float) : float :=
  if PrimFloat.ltb 0.9999%float prob then 0.9999%float else prob.

(** Lines 183 and 184 on binary64.  The built-in [Math.exp], which the
    language leaves to the engine to approximate, is taken as given. *)
Definition prob (Math_exp : float -> float) (totalCount difficulty : float) : float :=
  clamp (1 - Math_exp (PrimFloat.opp totalCount / difficulty))%float.

(** Lines 186 to 188: the text shown for the probability.  The built-in
    [toFixed] is taken as given ([toFixed x 2] for [x.toFixed(2)]). *)
Definition probStr (toFixed : float -> nat -> string) (prob : float) : string :=
  if PrimFloat.ltb 0.999%float prob then ">99.99%"%string
  else (toFixed (prob * 100)%float 2%nat ++ "%")%string.

End Stats.

(** ** The command line *)

(** What [parseInt] can return: [NaN], an integer, or an infinity (for a
    digit string beyond the range of a number). *)
Inductive JsInt : Type :=
| JsNaN
| JsFinite (z : Z)
| JsInfinity (negative : bool).

(** [!isNaN(t) && t > 0] *)
Definition is_positive (t : JsInt) : bool :=
  match t with
  | JsNaN => false
  | JsFinite z => (0 <? z)%Z
  | JsInfinity negative => negb negative
  end.

(** The object [params] of [parseArgs]. *)
Record Params : Type := mkParams {
  par_prefix : string;
  par_suffix : string;
  par_caseSensitive : bool;
  par_threads : JsInt;
  isAutoThreads : bool;
  par_showHelp : bool
}.

(** [args[++i] || '']: the next argument, or the empty string when there
    is none (or when it is empty itself). *)
Definition or_empty (next : option string) : string :=
  match next with
  | Some v => if falsy v then ""%string else v
  | None => ""%string
  end.

(** The ten spellings the [switch] of [parseArgs] knows. *)
Definition options : list string :=
  ["--prefix"; "-p"; "--suffix"; "-s"; "--case-sensitive"; "-c";
   "--threads"; "-t"; "--help"; "-h"]%string.

Definition is_opt (arg long short : string) : bool :=
  (String.eqb arg long || String.eqb arg short)%bool.

Section ParseArgs.

(** [os.cpus().length], and the built-in [parseInt] on a string. *)
Variable cpus : Z.
Variable parseInt : string -> JsInt.

(** [parseInt(args[++i])]: with no argument left it is [parseInt(undefined)],
    which is [NaN]. *)
Definition parse_threads (next : option string) : JsInt :=
  match next with
  | Some v => parseInt v
  | None => JsNaN
  end.

Definition params_init : Params :=
  mkParams "" "" false (JsFinite cpus) true false.

(** The [for] loop of lines 80 to 100, on the arguments from index [i] on.
    An option that takes a value moves [i] past the argument behind it,
    whatever that argument is. *)
Fixpoint parse_loop (params : Params) (args : list string) {struct args} : Params :=
  match args with
  | [] => params
  | arg :: rest =>
      if is_opt arg "--prefix" "-p" then
        let params' :=
          mkParams (or_empty (hd_error rest)) (par_suffix params)
            (par_caseSensitive params) (par_threads params)
            (isAutoThreads params) (par_showHelp params) in
        match rest with
        | [] => params'
        | _ :: rest' => parse_loop params' rest'
        end
      else if is_opt arg "--suffix" "-s" then
        let params' :=
          mkParams (par_prefix params) (or_empty (hd_error rest))
            (par_caseSensitive params) (par_threads params)
            (isAutoThreads params) (par_showHelp params) in
        match rest with
        | [] => params'
        | _ :: rest' => parse_loop params' rest'
        end
      else if is_opt arg "--case-sensitive" "-c" then
        parse_loop
          (mkParams (par_prefix params) (par_suffix params) true
             (par_threads params) (isAutoThreads params) (par_showHelp params))
          rest
      else if is_opt arg "--threads" "-t" then
        let t := parse_threads (hd_error rest) in
        let params' :=
          if is_positive t
          then mkParams (par_prefix params) (par_suffix params)
                 (par_caseSensitive params) t false (par_showHelp params)
          else params in
        match rest with
        | [] => params'
        | _ :: rest' => parse_loop params' rest'
        end
      else if is_opt arg "--help" "-h" then
        parse_loop
          (mkParams (par_prefix params) (par_suffix params)
             (par_caseSensitive params) (par_threads params)
             (isAutoThreads params) true)
          rest
      else parse_loop params rest
  end.

(** What one turn of the loop does to [params], and the arguments it
    leaves for the turns after it. *)
Definition turn (params : Params) (arg : string) (rest : list string)
  : Params * list string :=
  if is_opt arg "--prefix" "-p" then
    (mkParams (or_empty (hd_error rest)) (par_suffix params)
       (par_caseSensitive params) (par_threads params)
       (isAutoThreads params) (par_showHelp params), tl rest)
  else if is_opt arg "--suffix" "-s" then
    (mkParams (par_prefix params) (or_empty (hd_error rest))
       (par_caseSensitive params) (par_threads params)
       (isAutoThreads params) (par_showHelp params), tl rest)
  else if is_opt arg "--case-sensitive" "-c" then
    (mkParams (par_prefix params) (par_suffix params) true
       (par_threads params) (isAutoThreads params) (par_showHelp params), rest)
  else if is_opt arg "--threads" "-t" then
    (if is_positive (parse_threads (hd_error rest))
     then mkParams (par_prefix params) (par_suffix params)
            (par_caseSensitive params) (parse_threads (hd_error rest))
            false (par_showHelp params)
     else params, tl rest)
  else if is_opt arg "--help" "-h" then
    (mkParams (par_prefix params) (par_suffix params)
       (par_caseSensitive params) (par_threads params)
       (isAutoThreads params) true, rest)
  else (params, rest).

(** [parseArgs()], with [args = process.argv.slice(2)]. *)
Definition parseArgs (args : list string) : Params :=
  match args with
  | [] => mkParams "" "" false (JsFinite cpus) true true
  | _ :: _ => parse_loop params_init args
  end.

End ParseArgs.

(** The number of turns of [for (let i = 0; i < config.threads; i++)], when
    the loop ends. *)
Definition spawn_count (t : JsInt) : option nat :=
  match t with
  | JsFinite z => Some (Z.to_nat z)
  | JsNaN => Some O
  | JsInfinity negative => if negative then Some O else None
  end.

(** The main thread from the parsed command line up to its worker threads;
    [None] when the loop that creates them does not end. *)
Definition main_of_params (params : Params) : option Startup :=
  if par_showHelp params then Some ExitHelp
  else
    match build (par_prefix params) (par_suffix params) (par_caseSensitive params) with
    | inl e => Some (ExitError e)
    | inr p =>
        match spawn_count (par_threads params) with
        | Some n => Some (Spawned p (repeat (data p) n))
        | None => None
        end
    end.

(** ** Terminal output: colours and boxes

    The drawing functions measure strings by their [length], that is in
    UTF-16 code units, and the frames are drawn with characters beyond
    ASCII; here a string is the list of its code units. *)

Module Term.

Definition text : Type := list N.

(** The code units of an ASCII string literal. *)
Definition units (s : string) : text :=
  List.map N_of_ascii (list_ascii_of_string s).

Definition ESC : N := 27.          (* \x1b *)
Definition bracket : N := 91.      (* [ *)
Definition letter_m : N := 109.    (* m *)
Definition space : N := 32.
Definition vertical : N := 9474.   (* U+2502, the side of a box *)
Definition horizontal : N := 9472. (* U+2500, the default [char] of [drawLine] *)

(** The class [[0-9;]]. *)
Definition isParam (c : N) : bool :=
  ((48 <=? c) && (c <=? 57) || (c =? 59))%N.

(** [str.replace(/\x1b\[[0-9;]*m/g, '')]: from left to right, an escape
    sequence that starts where the scan stands is dropped and the scan goes
    on behind it; a character at which none starts is kept.  The class
    holds neither [m] nor the escape character, so the run of parameters
    that is tried is the longest one. *)
Fixpoint stripAnsi (str : text) : text :=
  match str with
  | [] => []
  | c :: rest =>
      let kept := c :: stripAnsi rest in
      if (c =? ESC)%N then
        match rest with
        | b :: after_bracket =>
            if (b =? bracket)%N then
              (fix params (p : text) : text :=
                 match p with
                 | [] => kept
                 | d :: p' =>
                     if isParam d then params p'
                     else if (d =? letter_m)%N then stripAnsi p'
                     else kept
                 end) after_bracket
            else kept
        | [] => kept
        end
      else kept
  end.

(** The reading of the regular expression against which [stripAnsi] is
    checked: [escape_at str] is what follows the escape sequence that
    starts at the head of [str], when one does. *)
Fixpoint after_params (p : text) : option text :=
  match p with
  | [] => None
  | d :: p' =>
      if isParam d then after_params p'
      else if (d =? letter_m)%N then Some p'
      else None
  end.

Definition escape_at (str : text) : option text :=
  match str with
  | c :: b :: p => if ((c =? ESC) && (b =? bracket))%N then after_params p else None
  | _ => None
  end.

(** A text whose first character cannot carry on an escape sequence that
    was begun before it. *)
Definition neutral_head (t : text) : bool :=
  match t with
  | [] => true
  | c :: _ => negb (isParam c || (c =? bracket)%N || (c =? letter_m)%N)
  end.

(** The [style] table. *)
Definition style_reset : text := ESC :: units "[0m".
Definition style_bold : text := ESC :: units "[1m".
Definition style_dim : text := ESC :: units "[2m".
Definition style_red : text := ESC :: units "[31m".
Definition style_green : text := ESC :: units "[32m".
Definition style_cyan : text := ESC :: units "[36m".
Definition style_box : text := ESC :: units "[90m".

Definition styles : list text :=
  [style_reset; style_bold; style_dim; style_red; style_green; style_cyan; style_box].

(** [s.repeat(n)] for [0 <= n]. *)
Definition repeat_text (s : text) (n : nat) : text := List.concat (List.repeat s n).

Definition visibleLength (content : text) : Z :=
  Z.of_nat (List.length (stripAnsi content)).

(** [pad(content, width)] *)
Definition pad (content : text) (width : Z) : text :=
  let padding := Z.max 0 (width - 4 - visibleLength content) in
  content ++ repeat_text [space] (Z.to_nat padding).

(** [drawLine(start, end, width, char)]; [None] is the [RangeError] that
    [char.repeat] throws on a negative count. *)
Definition drawLine (start end_ : text) (width : Z) (char : text) : option text :=
  if (width - 2 <? 0)%Z then None
  else Some (style_box ++ start ++ repeat_text char (Z.to_nat (width - 2))
               ++ end_ ++ style_reset).

(** [drawRow(content, width)] *)
Definition drawRow (content : text) (width : Z) : text :=
  style_box ++ [vertical; space] ++ style_reset ++ pad content width
    ++ style_box ++ [space; vertical] ++ style_reset.

Definition INFO_BOX_WIDTH : Z := 48.
Definition SUCCESS_BOX_WIDTH : Z := 84.

End Term.

(** ** Sample runs

    Concrete inputs on which the statements below are exercised. *)

Module Sample.

Local Open Scope string_scope.

(** [-p ab], case insensitive. *)
Definition w_ab : WorkerData := mkWorkerData "ab" "" false.

Definition hit1 : Account :=
  mkAccount "0x4c0883a69102937d6231471b5dbb6204fe5129617082792ae468d01a3f362318"
            "0xAb5801a7D398351b8bE11C439e05C5B3259aeC9B".

Definition hit2 : Account :=
  mkAccount "0x8f2a55949038a9610f50fb23b5883af3b4ecb3c3bb792cbcefbd1542c692be63"
            "0xaB7C8803962c0f2F5BBBe3FA8bf41cd82AA1923C".

Definition miss : Account :=
  mkAccount "0x0dbbe8e4ae425a6d2687f1a7e3ba17bc98c673636790f1b8ad91193c05875ef1"
            "0x52908400098527886E0F7030069857D2E4169EE7".

(** A clock reading, in milliseconds. *)
Definition t0 : Z := 1700000000000.

End Sample.

(** * Properties *)

(** ** String operations against their meaning *)

Section StringFacts.

Local Open Scope string_scope.

Lemma falsy_true_iff (s : string) : falsy s = true <-> s = "".
Proof. destruct s; simpl; split; congruence. Qed.

Lemma falsy_false_iff (s : string) : falsy s = false <-> s <> "".
Proof. destruct s; simpl; split; congruence. Qed.

Lemma startsWith_app (search rest : string) :
  startsWith (search ++ rest) search = true.
Proof.
  induction search as [|c search IH]; simpl; [reflexivity|].
  now rewrite Ascii.eqb_refl, IH.
Qed.

Lemma startsWith_iff (s search : string) :
  startsWith s search = true <-> exists rest, s = search ++ rest.
Proof.
  split.
  - revert s.
    induction search as [|c search IH]; intros s H; simpl in *.
    + now exists s.
    + destruct s as [|d s]; [discriminate|].
      apply andb_true_iff in H as [Hc Hs].
      apply Ascii.eqb_eq in Hc; subst d.
      destruct (IH _ Hs) as [rest ->].
      now exists rest.
  - intros [rest ->]. apply startsWith_app.
Qed.

Lemma string_length_app (s t : string) :
  String.length (s ++ t) = String.length s + String.length t.
Proof. induction s as [|c s IH]; simpl; [reflexivity | now rewrite IH]. Qed.

Lemma slice_app (front s : string) :
  slice (String.length front) (front ++ s) = s.
Proof. induction front as [|c front IH]; simpl; [reflexivity | exact IH]. Qed.

Lemma slice_is_tail (n : nat) (s : string) :
  exists front, s = front ++ slice n s.
Proof.
  revert s.
  induction n as [|n IH]; intros s; simpl.
  - now exists "".
  - destruct s as [|c s]; [now exists ""|].
    destruct (IH s) as [front Hfront].
    exists (String c front). simpl. now rewrite <- Hfront.
Qed.

Lemma endsWith_iff (s search : string) :
  endsWith s search = true <-> exists front, s = front ++ search.
Proof.
  unfold endsWith. split.
  - destruct (Nat.ltb_spec (String.length s) (String.length search)) as [|_];
      [discriminate|].
    intros H. apply String.eqb_eq in H.
    destruct (slice_is_tail (String.length s - String.length search) s)
      as [front Hfront].
    exists front. now rewrite H in Hfront.
  - intros [front ->].
    rewrite string_length_app.
    destruct (Nat.ltb_spec (String.length front + String.length search)
                (String.length search)) as [Hlt|_]; [lia|].
    replace (String.length front + String.length search - String.length search)
      with (String.length front) by lia.
    rewrite slice_app. apply String.eqb_refl.
Qed.

Lemma isHexChar_member (c : ascii) :
  isHexChar c = existsb (Ascii.eqb c) hexDigits.
Proof.
  destruct c as [[] [] [] [] [] [] [] []]; vm_compute; reflexivity.
Qed.

Lemma isHexChar_iff (c : ascii) : isHexChar c = true <-> In c hexDigits.
Proof.
  rewrite isHexChar_member, existsb_exists. split.
  - intros [d [Hd Heq]]. apply Ascii.eqb_eq in Heq. now subst.
  - intros H. exists c. split; [exact H | apply Ascii.eqb_refl].
Qed.

Lemma allHex_iff (s : string) :
  allHex s = true <->
  forall c, In c (list_ascii_of_string s) -> isHexChar c = true.
Proof.
  induction s as [|d s IH]; simpl.
  - split; [intros _ c [] | reflexivity].
  - rewrite andb_true_iff, IH. split.
    + intros [Hd Hs] c [<-|Hc]; auto.
    + intros H. split; [apply H; now left | intros c Hc; apply H; now right].
Qed.

Lemma allHex_app (s t : string) :
  allHex (s ++ t) = (allHex s && allHex t)%bool.
Proof.
  induction s as [|c s IH]; simpl; [reflexivity|].
  now rewrite IH, andb_assoc.
Qed.

End StringFacts.

(** ** Pattern construction *)

Section Pattern.

Local Open Scope string_scope.

(** The letter [x] is no hexadecimal digit, so a pattern that holds it
    does not pass the test of line 118. *)
Lemma testHex_0x (rest suffix_raw : string) :
  testHex (("0x" ++ rest) ++ suffix_raw) = false.
Proof. reflexivity. Qed.

Lemma hex_not_x (c : ascii) :
  isHexChar c = true ->
  Ascii.eqb c "x" = false /\ Ascii.eqb (lowerChar c) "x" = false.
Proof.
  destruct c as [[] [] [] [] [] [] [] []]; vm_compute; intros H;
    first [discriminate H | split; reflexivity].
Qed.

(** On a pattern that has passed the test of line 118 the prefix cannot
    start with [0x], so line 125 leaves it as it is. *)
Lemma strip_never_fires (prefix_raw suffix_raw : string) (case_sensitive : bool)
    (p : PatternSpec) :
  build prefix_raw suffix_raw case_sensitive = inr p ->
  prefix (data p) = (if case_sensitive then prefix_raw else toLowerCase prefix_raw)
  /\ suffix (data p) = (if case_sensitive then suffix_raw else toLowerCase suffix_raw).
Proof.
  unfold build.
  destruct (falsy (prefix_raw ++ suffix_raw)); [discriminate|].
  destruct (testHex (prefix_raw ++ suffix_raw)) eqn:Ht; [|discriminate].
  simpl. intros H. injection H as <-. simpl. split; [|reflexivity].
  unfold testHex in Ht. apply andb_true_iff in Ht as [_ Ha].
  rewrite allHex_app in Ha. apply andb_true_iff in Ha as [Ha _].
  destruct prefix_raw as [|c0 [|c1 r]];
    [now destruct case_sensitive
    |destruct case_sensitive; simpl; now rewrite andb_false_r |].
  simpl in Ha. apply andb_true_iff in Ha as [_ Ha].
  apply andb_true_iff in Ha as [Hc1 _].
  destruct (hex_not_x c1 Hc1) as [Hx Hlx].
  destruct case_sensitive; simpl.
  - now rewrite Hx, andb_false_r.
  - now rewrite Hlx, andb_false_r.
Qed.

(** C5 (where the program departs from it): a prefix given with a
    leading [0x] does not reach the line that would strip it.  Whatever
    follows the [0x], and whatever the suffix and the case flag are, the
    validation before that line ends the run with the invalid hex error,
    while the same prefix without the [0x] is accepted. *)
Theorem build_rejects_0x_prefix (rest suffix_raw : string) (case_sensitive : bool) :
  build ("0x" ++ rest) suffix_raw case_sensitive = inl InvalidHex
  /\ build "0xab" "" false = inl InvalidHex
  /\ build "ab" "" false = inr (mkPatternSpec (mkWorkerData "ab" "" false) 2).
Proof. repeat split. Qed.

(** C8: when the prefix followed by the suffix holds a character
    that is none of [0-9a-fA-F], the construction of the pattern fails
    with the invalid hex error, the main thread leaves with exit code 1,
    and no worker has been started. *)
Theorem build_invalid_hex
    (prefix_raw suffix_raw : string) (case_sensitive : bool) (c : ascii)
    (Hin : In c (list_ascii_of_string (prefix_raw ++ suffix_raw)))
    (Hbad : ~ In c hexDigits) :
  build prefix_raw suffix_raw case_sensitive = inl InvalidHex
  /\ (forall n : nat,
        main_start (mkConfig prefix_raw suffix_raw case_sensitive n false)
        = ExitError InvalidHex)
  /\ (forall (n : nat) (help : bool),
        workers_started
          (main_start (mkConfig prefix_raw suffix_raw case_sensitive n help)) = []).
Proof.
  assert (Hb : build prefix_raw suffix_raw case_sensitive = inl InvalidHex).
  { unfold build.
    destruct (falsy (prefix_raw ++ suffix_raw)) eqn:Hf.
    - apply falsy_true_iff in Hf. rewrite Hf in Hin. destruct Hin.
    - assert (Ht : testHex (prefix_raw ++ suffix_raw) = false).
      { unfold testHex. rewrite Hf. simpl.
        destruct (allHex (prefix_raw ++ suffix_raw)) eqn:Ha; [|reflexivity].
        exfalso. apply Hbad, isHexChar_iff.
        exact (proj1 (allHex_iff _) Ha c Hin). }
      now rewrite Ht. }
  split; [exact Hb|]. split.
  - intros n. unfold main_start. simpl. now rewrite Hb.
  - intros n help. unfold main_start. simpl.
    destruct help; [reflexivity|]. now rewrite Hb.
Qed.

Lemma build_invalid_hex_witness :
  build "cafe" "88g" true = inl InvalidHex
  /\ (forall n : nat,
        main_start (mkConfig "cafe" "88g" true n false) = ExitError InvalidHex)
  /\ (forall (n : nat) (help : bool),
        workers_started (main_start (mkConfig "cafe" "88g" true n help)) = []).
Proof.
  apply (build_invalid_hex "cafe" "88g" true "g").
  - simpl. tauto.
  - unfold hexDigits. simpl. intros H.
    repeat (destruct H as [H|H]; [discriminate H|]). exact H.
Defined.

(** C9: with the prefix and the suffix both empty, the
    construction of the pattern fails with the empty pattern error and
    not with the invalid hex one; the main thread leaves with exit code
    1 and no worker has been started. *)
Theorem build_empty (case_sensitive : bool) :
  build "" "" case_sensitive = inl Empty
  /\ build "" "" case_sensitive <> inl InvalidHex
  /\ (forall n : nat,
        main_start (mkConfig "" "" case_sensitive n false) = ExitError Empty
        /\ exit_code (main_start (mkConfig "" "" case_sensitive n false)) = Some 1%Z)
  /\ (forall (n : nat) (help : bool),
        workers_started (main_start (mkConfig "" "" case_sensitive n help)) = []).
Proof.
  repeat split; try discriminate.
  intros n help. destruct help; reflexivity.
Qed.

End Pattern.

(** ** The worker loop *)

Section Worker.

Variable w : WorkerData.

Lemma iteration_eq (localCount : Z) (account : Account) :
  iteration w localCount account =
  ((if isMatch w account
    then [found (address account) (pk account) (localCount + 1)] else [])
   ++ (if (Z.rem (localCount + 1) BATCH_SIZE =? 0)%Z then [tick BATCH_SIZE] else []),
   if (Z.rem (localCount + 1) BATCH_SIZE =? 0)%Z then 0%Z else (localCount + 1)%Z).
Proof.
  unfold iteration, isMatch.
  destruct (Z.rem (localCount + 1) BATCH_SIZE =? 0)%Z; [reflexivity|].
  now rewrite app_nil_r.
Qed.

Lemma worker_cons (localCount : Z) (account : Account) (rest : list Account) :
  worker w localCount (account :: rest) =
  (fst (iteration w localCount account)
     ++ fst (worker w (snd (iteration w localCount account)) rest),
   snd (worker w (snd (iteration w localCount account)) rest)).
Proof.
  simpl. destruct (iteration w localCount account) as [posted lc'].
  simpl. now destruct (worker w lc' rest).
Qed.

Lemma worker_app (localCount : Z) (xs ys : list Account) :
  worker w localCount (xs ++ ys) =
  (fst (worker w localCount xs) ++ fst (worker w (snd (worker w localCount xs)) ys),
   snd (worker w (snd (worker w localCount xs)) ys)).
Proof.
  revert localCount.
  induction xs as [|x xs IH]; intros localCount.
  - simpl. now destruct (worker w localCount ys).
  - rewrite <- app_comm_cons, !worker_cons, IH. simpl.
    now rewrite app_assoc.
Qed.

Lemma found_in_iteration (localCount : Z) (account : Account) (m : Message) :
  In m (fst (iteration w localCount account)) -> is_found m = true ->
  isMatch w account = true
  /\ m = found (address account) (pk account) (localCount + 1).
Proof.
  rewrite iteration_eq. simpl. intros Hin Hm.
  apply in_app_or in Hin as [Hin|Hin].
  - destruct (isMatch w account); [|destruct Hin].
    destruct Hin as [<-|[]]. now split.
  - destruct (Z.rem (localCount + 1) BATCH_SIZE =? 0)%Z; [|destruct Hin].
    destruct Hin as [<-|[]]. discriminate Hm.
Qed.

Lemma batch_boundary (localCount : Z) :
  (0 <= localCount < BATCH_SIZE)%Z ->
  (Z.rem (localCount + 1) BATCH_SIZE =? 0)%Z = (localCount + 1 =? BATCH_SIZE)%Z.
Proof.
  unfold BATCH_SIZE. intros H.
  rewrite Z.rem_mod_nonneg by lia.
  destruct (Z.eqb_spec (localCount + 1) 2000) as [->|Hne]; [reflexivity|].
  rewrite Z.mod_small by lia. apply Z.eqb_neq. lia.
Qed.

(** A run in which no account matches, started anywhere inside a batch. *)
Lemma worker_no_match (accounts : list Account) :
  (forall a, In a accounts -> isMatch w a = false) ->
  forall localCount : Z,
    (0 <= localCount < BATCH_SIZE)%Z ->
    worker w localCount accounts =
    (repeat (tick BATCH_SIZE)
       (Z.to_nat ((localCount + Z.of_nat (List.length accounts)) / BATCH_SIZE)),
     ((localCount + Z.of_nat (List.length accounts)) mod BATCH_SIZE)%Z).
Proof.
  induction accounts as [|a rest IH]; intros Hno localCount Hlc.
  - simpl. rewrite Z.add_0_r, Z.div_small, Z.mod_small by exact Hlc.
    reflexivity.
  - rewrite worker_cons, iteration_eq, (Hno a (or_introl eq_refl)).
    rewrite batch_boundary by exact Hlc.
    assert (Hrest : forall b, In b rest -> isMatch w b = false)
      by (intros b Hb; apply Hno; now right).
    set (n := Z.of_nat (List.length rest)).
    replace (Z.of_nat (List.length (a :: rest))) with (1 + n)%Z
      by (simpl List.length; lia).
    unfold BATCH_SIZE in *.
    destruct (Z.eqb_spec (localCount + 1) 2000) as [Hfull|Hpart]; simpl fst; simpl snd.
    + rewrite (IH Hrest 0%Z) by lia. fold n.
      replace (localCount + (1 + n))%Z with (0 + n + 1 * 2000)%Z by lia.
      rewrite Z.div_add, Z.mod_add by lia.
      replace (Z.to_nat ((0 + n) / 2000 + 1)) with (S (Z.to_nat ((0 + n) / 2000))).
      * reflexivity.
      * assert (0 <= (0 + n) / 2000)%Z by (apply Z.div_pos; lia). lia.
    + rewrite (IH Hrest (localCount + 1)%Z) by lia. fold n.
      replace (localCount + 1 + n)%Z with (localCount + (1 + n))%Z by lia.
      reflexivity.
Qed.

End Worker.

Section WorkerClaims.

Lemma found_count (w : WorkerData) (accounts : list Account) :
  forall localCount : Z,
    List.length (filter is_found (fst (worker w localCount accounts)))
    = List.length (filter (isMatch w) accounts).
Proof.
  induction accounts as [|a rest IH]; intros localCount; [reflexivity|].
  rewrite worker_cons, iteration_eq. simpl fst. simpl snd.
  rewrite !filter_app, !List.length_app, IH. simpl filter.
  destruct (isMatch w a);
    destruct (Z.rem (localCount + 1) BATCH_SIZE =? 0)%Z; reflexivity.
Qed.

(** C3: the worker reports a match exactly when the address, in
    the case the comparison uses, starts with [0x] followed by the
    stored prefix unless the prefix is empty, and ends with the stored
    suffix unless the suffix is empty; and a turn of the loop posts a
    [found] message exactly on that decision. *)
Theorem match_decision (w : WorkerData) (account : Account) :
  (isMatch w account = true <->
     (prefix w = ""%string
      \/ exists rest, addr_of w account = ("0x" ++ prefix w ++ rest)%string)
     /\ (suffix w = ""%string
         \/ exists front, addr_of w account = (front ++ suffix w)%string))
  /\ (forall localCount : Z,
        (exists m, In m (fst (iteration w localCount account)) /\ is_found m = true)
        <-> isMatch w account = true).
Proof.
  split.
  - unfold isMatch, isPrefixMatch, isSuffixMatch.
    rewrite andb_true_iff, !orb_true_iff, !falsy_true_iff,
      startsWith_iff, endsWith_iff.
    reflexivity.
  - intros localCount. split.
    + intros [m [Hin Hm]]. exact (proj1 (found_in_iteration w _ _ _ Hin Hm)).
    + intros Hmatch.
      exists (found (address account) (pk account) (localCount + 1)).
      split; [|reflexivity].
      rewrite iteration_eq, Hmatch. simpl. now left.
Qed.

(** C4: a worker that runs [n] turns without a match posts
    [floor (n / 2000)] ticks and nothing else, each tick with count
    2000, and is left with the remainder of [n] by 2000 in its counter:
    the turns of an unfinished batch are not reported.  Every turn that
    posts a tick leaves the counter at zero. *)
Theorem no_match_tick_count (w : WorkerData) (accounts : list Account)
    (Hno : forall a, In a accounts -> isMatch w a = false) :
  worker w 0 accounts =
    (repeat (tick 2000) (Z.to_nat (Z.of_nat (List.length accounts) / 2000)),
     (Z.of_nat (List.length accounts) mod 2000)%Z)
  /\ (forall (localCount : Z) (account : Account) (c : Z),
        In (tick c) (fst (iteration w localCount account)) ->
        c = 2000%Z /\ snd (iteration w localCount account) = 0%Z).
Proof.
  split.
  - rewrite (worker_no_match w accounts Hno 0%Z) by (unfold BATCH_SIZE; lia).
    reflexivity.
  - intros localCount account c. rewrite iteration_eq. simpl fst. simpl snd.
    intros Hin. apply in_app_or in Hin as [Hin|Hin].
    + destruct (isMatch w account); [|destruct Hin].
      destruct Hin as [Hin|[]]. discriminate Hin.
    + destruct (Z.rem (localCount + 1) BATCH_SIZE =? 0)%Z; [|destruct Hin].
      destruct Hin as [Hin|[]]. injection Hin as <-. now split.
Qed.

Lemma no_match_tick_count_witness :
  worker Sample.w_ab 0 (repeat Sample.miss 4001) =
    (repeat (tick 2000)
       (Z.to_nat (Z.of_nat (List.length (repeat Sample.miss 4001)) / 2000)),
     (Z.of_nat (List.length (repeat Sample.miss 4001)) mod 2000)%Z)
  /\ (forall (localCount : Z) (account : Account) (c : Z),
        In (tick c) (fst (iteration Sample.w_ab localCount account)) ->
        c = 2000%Z /\ snd (iteration Sample.w_ab localCount account) = 0%Z).
Proof.
  apply (no_match_tick_count Sample.w_ab (repeat Sample.miss 4001)).
  intros a Ha. apply repeat_spec in Ha. subst a. reflexivity.
Defined.

(** C2 (as the program has it): the worker posts the match of a
    matching turn and goes on with its loop.  What it posts on a run
    with a matching account in it is what it posted before that turn,
    the [found] message of the turn, a tick when the turn closes a
    batch, and then everything the loop posts on the accounts that
    follow; in all, one [found] message for every matching turn. *)
Theorem worker_goes_on_after_match
    (w : WorkerData) (localCount : Z) (before after : list Account)
    (account : Account) (Hmatch : isMatch w account = true) :
  fst (worker w localCount (before ++ account :: after)) =
    fst (worker w localCount before)
    ++ found (address account) (pk account)
         (snd (worker w localCount before) + 1)
       :: (if (Z.rem (snd (worker w localCount before) + 1) BATCH_SIZE =? 0)%Z
           then [tick BATCH_SIZE] else [])
       ++ fst (worker w
                 (snd (iteration w (snd (worker w localCount before)) account))
                 after)
  /\ List.length
       (filter is_found (fst (worker w localCount (before ++ account :: after))))
     = List.length (filter (isMatch w) (before ++ account :: after)).
Proof.
  split; [|apply found_count].
  rewrite worker_app, worker_cons, !iteration_eq, Hmatch.
  cbn [fst snd app]. reflexivity.
Qed.

Lemma worker_goes_on_after_match_witness :
  fst (worker Sample.w_ab 0 ([Sample.miss] ++ Sample.hit1 :: [Sample.hit2])) =
    fst (worker Sample.w_ab 0 [Sample.miss])
    ++ found (address Sample.hit1) (pk Sample.hit1)
         (snd (worker Sample.w_ab 0 [Sample.miss]) + 1)
       :: (if (Z.rem (snd (worker Sample.w_ab 0 [Sample.miss]) + 1) BATCH_SIZE =? 0)%Z
           then [tick BATCH_SIZE] else [])
       ++ fst (worker Sample.w_ab
                 (snd (iteration Sample.w_ab
                         (snd (worker Sample.w_ab 0 [Sample.miss])) Sample.hit1))
                 [Sample.hit2])
  /\ List.length
       (filter is_found
          (fst (worker Sample.w_ab 0 ([Sample.miss] ++ Sample.hit1 :: [Sample.hit2]))))
     = List.length
         (filter (isMatch Sample.w_ab) ([Sample.miss] ++ Sample.hit1 :: [Sample.hit2])).
Proof.
  apply (worker_goes_on_after_match Sample.w_ab 0 [Sample.miss] [Sample.hit2] Sample.hit1).
  reflexivity.
Defined.

(** C2 (as the specification states it, it does not hold): a worker
    whose first two
    accounts both match posts two [found] messages, and a worker whose
    2000th account is its first match posts a tick after its [found]
    message. *)
Lemma worker_posts_after_match :
  isMatch Sample.w_ab Sample.hit1 = true
  /\ fst (worker Sample.w_ab 0 [Sample.hit1; Sample.hit2]) =
       [found (address Sample.hit1) (pk Sample.hit1) 1;
        found (address Sample.hit2) (pk Sample.hit2) 2]
  /\ fst (worker Sample.w_ab 0 (repeat Sample.miss 1999 ++ [Sample.hit1])) =
       [found (address Sample.hit1) (pk Sample.hit1) 2000; tick 2000].
Proof. repeat split; vm_compute; reflexivity. Qed.

(** C10: in case insensitive mode the comparison reads the lower
    cased address, and the [found] message of a matching turn carries
    the address and the private key of the account as the key library
    made them; no [found] message of the turn carries anything else. *)
Theorem found_carries_account
    (w : WorkerData) (localCount : Z) (account : Account)
    (Hcase : isCaseSensitive w = false)
    (Hmatch : isMatch w account = true) :
  addr_of w account = toLowerCase (address account)
  /\ (exists rest,
        fst (iteration w localCount account) =
        found (address account) (pk account) (localCount + 1) :: rest)
  /\ (forall a p n,
        In (found a p n) (fst (iteration w localCount account)) ->
        a = address account /\ p = pk account).
Proof.
  split; [unfold addr_of; now rewrite Hcase|]. split.
  - rewrite iteration_eq, Hmatch. simpl. eauto.
  - intros a p n Hin.
    destruct (found_in_iteration w _ _ _ Hin eq_refl) as [_ Heq].
    injection Heq as -> -> _. now split.
Qed.

Lemma found_carries_account_witness :
  (addr_of Sample.w_ab Sample.hit1 = toLowerCase (address Sample.hit1)
   /\ (exists rest,
         fst (iteration Sample.w_ab 36 Sample.hit1) =
         found (address Sample.hit1) (pk Sample.hit1) (36 + 1) :: rest)
   /\ (forall a p n,
         In (found a p n) (fst (iteration Sample.w_ab 36 Sample.hit1)) ->
         a = address Sample.hit1 /\ p = pk Sample.hit1))
  /\ address Sample.hit1 <> toLowerCase (address Sample.hit1).
Proof.
  split.
  - apply (found_carries_account Sample.w_ab 36 Sample.hit1); reflexivity.
  - discriminate.
Defined.

End WorkerClaims.

(** ** The main thread's handler *)

Section Coordinator.

Variable startTime : Z.

Lemma drain_exited (isTTY : bool) (arrivals : list (Z * Message)) (st : Main)
    (code : Z) :
  exited st = Some code -> drain isTTY startTime arrivals st = st.
Proof.
  intros H. destruct arrivals as [|[now msg] rest]; simpl; [reflexivity|].
  now rewrite H.
Qed.

Lemma drain_app (isTTY : bool) (xs ys : list (Z * Message)) :
  forall st, drain isTTY startTime (xs ++ ys) st
             = drain isTTY startTime ys (drain isTTY startTime xs st).
Proof.
  induction xs as [|[now msg] xs IH]; intros st; simpl; [reflexivity|].
  destruct (exited st) as [code|] eqn:Hex; [|apply IH].
  symmetry. now apply drain_exited with code.
Qed.

(** On a terminal a tick neither ends the process nor prints a success
    box. *)
Lemma on_message_tick (now count : Z) (st : Main) :
  exited (on_message true startTime now (tick count) st) = exited st
  /\ filter is_on_found (printed (on_message true startTime now (tick count) st))
     = filter is_on_found (printed st).
Proof.
  simpl. destruct (100 <? now - lastLog st)%Z; simpl; split; try reflexivity.
  rewrite filter_app. simpl. apply app_nil_r.
Qed.

Lemma drain_ticks (arrivals : list (Z * Message)) :
  no_found arrivals ->
  forall st, exited st = None ->
    exited (drain true startTime arrivals st) = None
    /\ filter is_on_found (printed (drain true startTime arrivals st))
       = filter is_on_found (printed st).
Proof.
  induction arrivals as [|[now msg] rest IH]; intros Hno st Hex; simpl.
  - now split.
  - rewrite Hex.
    assert (Hmsg : is_found msg = false) by (apply (Hno (now, msg)); now left).
    destruct msg as [a p n|count]; [discriminate Hmsg|].
    destruct (on_message_tick now count st) as [He Hp].
    rewrite <- Hp. apply IH.
    + intros a Ha. apply Hno. now right.
    + now rewrite He.
Qed.

(** Either no match is among the arrivals, or one of them is the first. *)
Lemma first_found (arrivals : list (Z * Message)) :
  no_found arrivals
  \/ exists before now a p n after,
       arrivals = before ++ (now, found a p n) :: after /\ no_found before.
Proof.
  induction arrivals as [|[now msg] rest IH].
  - left. intros a [].
  - destruct msg as [a p n|count].
    + right. exists [], now, a, p, n, rest. split; [reflexivity | intros x []].
    + destruct IH as [Hno|(before & now' & a & p & n & after & -> & Hno)].
      * left. intros x [<-|Hx]; [reflexivity | now apply Hno].
      * right. exists ((now, tick count) :: before), now', a, p, n, after.
        split; [reflexivity|].
        intros x [<-|Hx]; [reflexivity | now apply Hno].
Qed.

(** On a terminal, the run up to and including the first match that
    arrives. *)
Lemma drain_first_found (before after : list (Z * Message))
    (now : Z) (a p : string) (n : Z) :
  no_found before ->
  forall st, exited st = None ->
    drain true startTime (before ++ (now, found a p n) :: after) st
    = on_message true startTime now (found a p n) (drain true startTime before st).
Proof.
  intros Hno st Hex.
  destruct (drain_ticks before Hno st Hex) as [Hex' _].
  rewrite drain_app. simpl. rewrite Hex'.
  now apply drain_exited with 0%Z.
Qed.

(** Without a terminal the handler never gets to write, nor to terminate
    the workers, and the only way it ends the process is the exit code 1
    of the uncaught error. *)
Lemma off_terminal_silent (arrivals : list (Z * Message)) :
  forall st,
    printed st = [] -> terminated st = false ->
    (exited st = None \/ exited st = Some 1%Z) ->
    printed (drain false startTime arrivals st) = []
    /\ terminated (drain false startTime arrivals st) = false
    /\ (exited (drain false startTime arrivals st) = None
        \/ exited (drain false startTime arrivals st) = Some 1%Z).
Proof.
  induction arrivals as [|[now msg] rest IH]; intros st Hp Ht He; simpl;
    [now repeat split|].
  destruct (exited st) as [code|] eqn:Hex; [rewrite Hex; now repeat split|].
  apply IH; destruct msg as [a p n|count]; simpl;
    try destruct (100 <? now - lastLog st)%Z; simpl; auto.
Qed.

Lemma off_terminal_found_ends (arrivals : list (Z * Message)) :
  forall st,
    (exists a, In a arrivals /\ found_arrival a = true) ->
    exited (drain false startTime arrivals st) <> None.
Proof.
  induction arrivals as [|[now msg] rest IH]; intros st [a [Hin Ha]];
    [destruct Hin|].
  simpl. destruct (exited st) as [code|] eqn:Hex; [now rewrite Hex|].
  destruct msg as [a' p n|count].
  - rewrite (drain_exited false rest _ 1%Z) by reflexivity. discriminate.
  - apply IH. destruct Hin as [<-|Hin]; [discriminate Ha|].
    now exists a.
Qed.

End Coordinator.

Section Winner.

(** C1 (where the program departs from it): when the standard output
    is not a terminal no match is accepted at all.  Whatever arrives, the
    handler writes nothing and never terminates the workers; as soon as a
    [found] message is among the arrivals the run has ended with exit
    code 1; and a [found] message that comes first leaves its attempts
    counted, no box printed and the error's exit code. *)
Theorem winner_lost_without_terminal (startTime : Z) (arrivals : list (Z * Message)) :
  printed (drain false startTime arrivals main_init) = []
  /\ terminated (drain false startTime arrivals main_init) = false
  /\ ((exists a, In a arrivals /\ found_arrival a = true) ->
      exited (drain false startTime arrivals main_init) = Some 1%Z)
  /\ (forall now a p n after,
        drain false startTime ((now, found a p n) :: after) main_init
        = mkMain n 0 [] false (Some 1%Z)).
Proof.
  destruct (off_terminal_silent startTime arrivals main_init)
    as (Hp & Ht & He); [reflexivity | reflexivity | now left |].
  split; [exact Hp|]. split; [exact Ht|]. split.
  - intros Hfound.
    destruct He as [He|He]; [|exact He].
    exfalso. exact (off_terminal_found_ends startTime arrivals main_init Hfound He).
  - intros now a p n after. simpl.
    now rewrite (drain_exited startTime false after _ 1%Z) by reflexivity.
Qed.

(** X20: on a terminal the first match wins.  In every run at most
    one success box is printed.  When the standard output is a terminal
    and a [found] message is among the arrivals, the first of them is
    the one accepted: its address and key are printed, the workers are
    terminated and the process exits with code 0, and the final state is
    the state right after that message, whatever arrives behind it,
    further [found] messages included.  When none is, nothing is
    accepted. *)
Theorem first_found_wins_on_terminal (startTime : Z) (arrivals : list (Z * Message)) :
  (forall isTTY : bool,
      (List.length
         (filter is_on_found (printed (drain isTTY startTime arrivals main_init)))
       <= 1)%nat)
  /\ (forall before now a p n after,
        arrivals = before ++ (now, found a p n) :: after ->
        no_found before ->
        drain true startTime arrivals main_init
        = drain true startTime (before ++ [(now, found a p n)]) main_init
        /\ filter is_on_found (printed (drain true startTime arrivals main_init))
           = [on_found a p (now - startTime)
                (totalCount (drain true startTime arrivals main_init))]
        /\ terminated (drain true startTime arrivals main_init) = true
        /\ exited (drain true startTime arrivals main_init) = Some 0%Z)
  /\ (no_found arrivals ->
      filter is_on_found (printed (drain true startTime arrivals main_init)) = []
      /\ exited (drain true startTime arrivals main_init) = None).
Proof.
  assert (Hwin : forall before now a p n after,
             arrivals = before ++ (now, found a p n) :: after ->
             no_found before ->
             drain true startTime arrivals main_init
             = drain true startTime (before ++ [(now, found a p n)]) main_init
             /\ filter is_on_found (printed (drain true startTime arrivals main_init))
                = [on_found a p (now - startTime)
                     (totalCount (drain true startTime arrivals main_init))]
             /\ terminated (drain true startTime arrivals main_init) = true
             /\ exited (drain true startTime arrivals main_init) = Some 0%Z).
  { intros before now a p n after -> Hno.
    rewrite !(drain_first_found startTime before _ now a p n Hno main_init eq_refl).
    destruct (drain_ticks startTime before Hno main_init eq_refl) as [_ Hp].
    repeat split. simpl. rewrite filter_app, Hp. reflexivity. }
  assert (Hnone : no_found arrivals ->
             filter is_on_found (printed (drain true startTime arrivals main_init)) = []
             /\ exited (drain true startTime arrivals main_init) = None).
  { intros Hno.
    destruct (drain_ticks startTime arrivals Hno main_init eq_refl) as [He Hp].
    now split. }
  split; [|now split].
  intros [|].
  - destruct (first_found arrivals)
      as [Hno|(before & now & a & p & n & after & Heq & Hno)].
    + destruct (Hnone Hno) as [-> _]. simpl. lia.
    + destruct (Hwin _ _ _ _ _ _ Heq Hno) as (_ & -> & _). simpl. lia.
  - destruct (off_terminal_silent startTime arrivals main_init)
      as (-> & _); [reflexivity | reflexivity | now left |].
    simpl. lia.
Qed.

End Winner.

(** ** The statistics *)

Section Speed.

Local Open Scope float_scope.

Lemma elapsed_same_instant (now : Z) : Stats.elapsed now now = 0.
Proof. unfold Stats.elapsed. rewrite Z.sub_diag. reflexivity. Qed.

(** IEEE 754 division of a positive number by zero. *)
Lemma div_pos_zero (x : float) : (0 <? x) = true -> x / 0 = infinity.
Proof.
  intros Hpos. apply Prim2SF_inj.
  rewrite div_spec. rewrite ltb_spec in Hpos.
  change (Prim2SF 0) with (S754_zero false) in *.
  change (Prim2SF infinity) with (S754_infinity false).
  destruct (Prim2SF x) as [s|s| |s m e]; try discriminate Hpos;
    destruct s; try discriminate Hpos; reflexivity.
Qed.

(** C6 (as the program has it): the speed is the quotient of the
    total count by the elapsed seconds with no test of the divisor.
    When no time has elapsed, the quotient of the positive count that a
    tick leaves is positive infinity, and that is the speed. *)
Theorem speed_unguarded (totalCount : float) (now : Z)
    (Hpos : (0 <? totalCount) = true) :
  (forall elapsed : float, Stats.speed totalCount elapsed = totalCount / elapsed)
  /\ Stats.speed totalCount (Stats.elapsed now now) = infinity.
Proof.
  split; [reflexivity|].
  unfold Stats.speed. rewrite elapsed_same_instant.
  now apply div_pos_zero.
Qed.

Lemma speed_unguarded_witness :
  (forall elapsed : float,
      Stats.speed (Stats.float_of_Z 2000) elapsed
      = Stats.float_of_Z 2000 / elapsed)
  /\ Stats.speed (Stats.float_of_Z 2000) (Stats.elapsed Sample.t0 Sample.t0)
     = infinity.
Proof.
  apply (speed_unguarded (Stats.float_of_Z 2000) Sample.t0). reflexivity.
Defined.

(** C6 (as the specification states it, it does not hold): on a
    terminal, a first tick handled in the
    millisecond in which the run began is rendered, with no time
    elapsed; the speed computed for it is positive infinity, which is
    neither zero nor an undefined number, and it is shown in the branch
    for speeds above a thousand. *)
Lemma speed_division_by_zero :
  printed (drain true Sample.t0 [(Sample.t0, tick BATCH_SIZE)] main_init)
    = [on_progress 0 2000]
  /\ Stats.elapsed Sample.t0 Sample.t0 = 0
  /\ Stats.speed (Stats.float_of_Z 2000) (Stats.elapsed Sample.t0 Sample.t0)
     = infinity
  /\ is_zero (Stats.speed (Stats.float_of_Z 2000)
                (Stats.elapsed Sample.t0 Sample.t0)) = false
  /\ is_nan (Stats.speed (Stats.float_of_Z 2000)
               (Stats.elapsed Sample.t0 Sample.t0)) = false
  /\ Stats.speed_in_thousands
       (Stats.speed (Stats.float_of_Z 2000)
          (Stats.elapsed Sample.t0 Sample.t0)) = true.
Proof. repeat split. Qed.

(** Whatever [Math.exp] returned, the number left by the clamp of line
    184 is not 1. *)
Lemma clamp_never_one (p : float) : Stats.clamp p <> 1.
Proof.
  unfold Stats.clamp.
  destruct (0.9999 <? p) eqn:Hgt; intros H.
  - apply (f_equal (fun x => x <? 1)) in H. vm_compute in H. discriminate H.
  - subst p. vm_compute in Hgt. discriminate Hgt.
Qed.

End Speed.

(** ** Terminal output *)

Section TerminalText.

Import Term.

(** The inner loop of [stripAnsi], over the parameters of an escape
    sequence, against [after_params]. *)
Lemma params_loop (kept p : text) :
  (fix params (p : text) : text :=
     match p with
     | [] => kept
     | d :: p' =>
         if isParam d then params p'
         else if (d =? letter_m)%N then stripAnsi p'
         else kept
     end) p
  = match after_params p with
    | Some r => stripAnsi r
    | None => kept
    end.
Proof.
  induction p as [|d p IH]; [reflexivity|].
  cbn [after_params]. destruct (isParam d); [exact IH|].
  now destruct (d =? letter_m)%N.
Qed.

Lemma stripAnsi_step (c : N) (rest : text) :
  stripAnsi (c :: rest) =
  match escape_at (c :: rest) with
  | Some r => stripAnsi r
  | None => c :: stripAnsi rest
  end.
Proof.
  destruct rest as [|b p]; [simpl; now destruct (c =? ESC)%N|].
  transitivity
    (if (c =? ESC)%N
     then if (b =? bracket)%N
          then match after_params p with
               | Some r => stripAnsi r
               | None => c :: stripAnsi (b :: p)
               end
          else c :: stripAnsi (b :: p)
     else c :: stripAnsi (b :: p)).
  - rewrite <- params_loop. reflexivity.
  - unfold escape_at.
    destruct (c =? ESC)%N; destruct (b =? bracket)%N; reflexivity.
Qed.

Lemma after_params_shape (p r : text) :
  after_params p = Some r ->
  exists ps, p = ps ++ letter_m :: r /\ forallb isParam ps = true.
Proof.
  revert r. induction p as [|d p IH]; intros r; simpl; [discriminate|].
  destruct (isParam d) eqn:Hd.
  - intros H. destruct (IH r H) as [ps [-> Hps]].
    exists (d :: ps). split; [reflexivity|]. simpl. now rewrite Hd.
  - destruct (N.eqb_spec d letter_m) as [->|]; [|discriminate].
    intros H. injection H as <-. now exists [].
Qed.

Lemma after_params_complete (ps r : text) :
  forallb isParam ps = true -> after_params (ps ++ letter_m :: r) = Some r.
Proof.
  induction ps as [|d ps IH]; simpl; [reflexivity|].
  intros H. apply andb_true_iff in H as [Hd Hps].
  rewrite Hd. now apply IH.
Qed.

Lemma escape_at_shape (str r : text) :
  escape_at str = Some r ->
  exists ps, str = ESC :: bracket :: ps ++ letter_m :: r
             /\ forallb isParam ps = true.
Proof.
  destruct str as [|c [|b p]]; simpl; try discriminate.
  destruct (N.eqb_spec c ESC) as [->|]; [|discriminate].
  destruct (N.eqb_spec b bracket) as [->|]; [|discriminate].
  simpl. intros H. destruct (after_params_shape _ _ H) as [ps [-> Hps]].
  now exists ps.
Qed.

Lemma escape_at_shorter (str r : text) :
  escape_at str = Some r -> (List.length r + 3 <= List.length str)%nat.
Proof.
  intros H. destruct (escape_at_shape _ _ H) as [ps [-> _]].
  simpl. rewrite List.length_app. simpl. lia.
Qed.

Lemma after_params_app (p t : text) :
  neutral_head t = true ->
  after_params (p ++ t) = option_map (fun r => r ++ t) (after_params p).
Proof.
  intros Ht. induction p as [|d p IH]; simpl.
  - destruct t as [|c t]; [reflexivity|]. simpl in *.
    apply negb_true_iff in Ht.
    apply orb_false_iff in Ht as [Ht Hm].
    apply orb_false_iff in Ht as [Hp _].
    now rewrite Hp, Hm.
  - destruct (isParam d); [exact IH|].
    now destruct (d =? letter_m)%N.
Qed.

Lemma escape_at_app (c : N) (rest t : text) :
  neutral_head t = true ->
  escape_at ((c :: rest) ++ t)
  = option_map (fun r => r ++ t) (escape_at (c :: rest)).
Proof.
  intros Ht. destruct rest as [|b p]; simpl.
  - destruct t as [|d t]; [reflexivity|]. simpl in *.
    apply negb_true_iff in Ht.
    apply orb_false_iff in Ht as [Ht _].
    apply orb_false_iff in Ht as [_ Hb].
    now rewrite Hb, andb_false_r.
  - destruct ((c =? ESC)%N && (b =? bracket)%N)%bool; [|reflexivity].
    now apply after_params_app.
Qed.

(** Induction on the length of a text. *)
Lemma text_length_ind (P : text -> Prop) :
  (forall s, (forall r, (List.length r < List.length s)%nat -> P r) -> P s) ->
  forall s, P s.
Proof.
  intros Hstep s.
  assert (H : forall n r, (List.length r < n)%nat -> P r).
  { induction n as [|n IH]; intros r Hr; [lia|].
    apply Hstep. intros r' Hr'. apply IH. lia. }
  apply (H (S (List.length s))). lia.
Qed.

Lemma stripAnsi_app (s t : text) :
  neutral_head t = true -> stripAnsi (s ++ t) = stripAnsi s ++ stripAnsi t.
Proof.
  intros Ht. induction s as [s IH] using text_length_ind.
  destruct s as [|c rest]; [reflexivity|].
  change ((c :: rest) ++ t) with (c :: (rest ++ t)).
  rewrite !stripAnsi_step.
  change (c :: (rest ++ t)) with ((c :: rest) ++ t).
  rewrite escape_at_app by exact Ht.
  destruct (escape_at (c :: rest)) as [r|] eqn:He; simpl.
  - apply IH. apply escape_at_shorter in He. lia.
  - f_equal. apply IH. simpl. lia.
Qed.

Lemma stripAnsi_plain (s : text) : ~ In ESC s -> stripAnsi s = s.
Proof.
  induction s as [|c rest IH]; intros Hno; [reflexivity|].
  rewrite stripAnsi_step.
  assert (He : escape_at (c :: rest) = None).
  { destruct (escape_at (c :: rest)) as [r|] eqn:He; [|reflexivity].
    destruct (escape_at_shape _ _ He) as [ps [Heq _]].
    injection Heq as -> _. exfalso. apply Hno. now left. }
  rewrite He. f_equal. apply IH. intros H. apply Hno. now right.
Qed.

Lemma stripAnsi_escape (ps s : text) :
  forallb isParam ps = true ->
  stripAnsi (ESC :: bracket :: ps ++ letter_m :: s) = stripAnsi s.
Proof.
  intros Hps. rewrite stripAnsi_step. simpl escape_at.
  now rewrite after_params_complete.
Qed.

Lemma stripAnsi_style (code s : text) :
  In code styles -> stripAnsi (code ++ s) = stripAnsi s.
Proof.
  unfold styles. intros H.
  repeat (destruct H as [<-|H]; [reflexivity|]). destruct H.
Qed.

Lemma repeat_space_plain (n : nat) :
  stripAnsi (repeat_text [space] n) = repeat_text [space] n
  /\ neutral_head (repeat_text [space] n) = true
  /\ List.length (repeat_text [space] n) = n.
Proof.
  induction n as [|n [IH1 [IH2 IH3]]]; [repeat split|].
  unfold repeat_text in *. simpl. rewrite IH1, IH3. repeat split.
Qed.

Lemma stripAnsi_length (s : text) :
  (List.length (stripAnsi s) <= List.length s)%nat.
Proof.
  induction s as [s IH] using text_length_ind.
  destruct s as [|c rest]; [simpl; lia|].
  rewrite stripAnsi_step.
  destruct (escape_at (c :: rest)) as [r|] eqn:He.
  - pose proof (escape_at_shorter _ _ He) as Hr.
    specialize (IH r). lia.
  - specialize (IH rest). simpl in *. lia.
Qed.

Lemma repeat_text_plain (char : text) (n : nat) :
  ~ In ESC char -> ~ In ESC (repeat_text char n).
Proof.
  intros Hno. unfold repeat_text.
  induction n as [|n IH]; simpl; [tauto|].
  intros H. apply in_app_or in H. tauto.
Qed.

Lemma repeat_text_length (char : text) (n : nat) :
  List.length (repeat_text char n) = (n * List.length char)%nat.
Proof.
  unfold repeat_text. induction n as [|n IH]; simpl; [reflexivity|].
  rewrite List.length_app, IH. reflexivity.
Qed.

Lemma stripAnsi_pad (content : text) (width : Z) :
  stripAnsi (pad content width)
  = stripAnsi content
    ++ repeat_text [space] (Z.to_nat (width - 4 - visibleLength content)).
Proof.
  unfold pad.
  replace (Z.to_nat (Z.max 0 (width - 4 - visibleLength content)))
    with (Z.to_nat (width - 4 - visibleLength content)) by lia.
  destruct (repeat_space_plain (Z.to_nat (width - 4 - visibleLength content)))
    as [Hplain [Hhead _]].
  now rewrite stripAnsi_app, Hplain by exact Hhead.
Qed.

End TerminalText.

Section Boxes.

Import Term.

(** X1: an escape sequence (the escape character, a bracket, any
    digits and semicolons, the letter m), and so each of the seven codes
    of the style table, is taken out wherever it stands, and the text on
    either side of it is stripped as if the other side were not there. *)
Theorem stripAnsi_removes_sequence (front code back : text)
    (Hcode : In code styles
             \/ exists ps, forallb isParam ps = true
                           /\ code = ESC :: bracket :: ps ++ [letter_m]) :
  stripAnsi (front ++ code ++ back) = stripAnsi front ++ stripAnsi back.
Proof.
  destruct Hcode as [Hstyle|[ps [Hps ->]]].
  - rewrite stripAnsi_app, stripAnsi_style by
      (try exact Hstyle; unfold styles in Hstyle;
       repeat (destruct Hstyle as [<-|Hstyle]; [reflexivity|]); destruct Hstyle).
    reflexivity.
  - rewrite stripAnsi_app by reflexivity.
    replace ((ESC :: bracket :: ps ++ [letter_m]) ++ back)
      with (ESC :: bracket :: ps ++ letter_m :: back)
      by (simpl; now rewrite <- app_assoc).
    now rewrite stripAnsi_escape.
Qed.

Lemma stripAnsi_removes_sequence_witness :
  stripAnsi (units "Scanned: " ++ (ESC :: bracket :: units "1;32" ++ [letter_m])
               ++ units "52.3k")
  = stripAnsi (units "Scanned: ") ++ stripAnsi (units "52.3k").
Proof.
  apply (stripAnsi_removes_sequence (units "Scanned: ")
           (ESC :: bracket :: units "1;32" ++ [letter_m]) (units "52.3k")).
  right. exists (units "1;32"). split; reflexivity.
Defined.

(** X2: stripping never makes a text longer, and a text that holds
    no escape character comes back as it went in. *)
Theorem stripAnsi_never_adds (s : text) :
  (List.length (stripAnsi s) <= List.length s)%nat
  /\ (~ In ESC s -> stripAnsi s = s).
Proof. split; [apply stripAnsi_length | apply stripAnsi_plain]. Qed.

(** X3: [pad] only appends spaces, and the padded text shows as
    many characters as the content does or as the width less four,
    whichever is more: colour codes in the content do not count, and a
    content that is too wide is not cut.  Padding what is padded already
    changes nothing. *)
Theorem pad_visible_length (content : text) (width : Z) :
  pad content width
  = content ++ List.repeat space (Z.to_nat (width - 4 - visibleLength content))
  /\ visibleLength (pad content width)
     = Z.max (visibleLength content) (width - 4)
  /\ pad (pad content width) width = pad content width.
Proof.
  assert (Hvis : visibleLength (pad content width)
                 = Z.max (visibleLength content) (width - 4)).
  { unfold visibleLength at 1. rewrite stripAnsi_pad, List.length_app.
    destruct (repeat_space_plain (Z.to_nat (width - 4 - visibleLength content)))
      as [_ [_ ->]].
    unfold visibleLength. lia. }
  split; [|split; [exact Hvis|]].
  2:{ unfold pad at 1. rewrite Hvis.
      replace (Z.to_nat
                 (Z.max 0 (width - 4 - Z.max (visibleLength content) (width - 4))))
        with O by lia.
      apply app_nil_r. }
  unfold pad, repeat_text. f_equal.
  replace (Z.to_nat (Z.max 0 (width - 4 - visibleLength content)))
    with (Z.to_nat (width - 4 - visibleLength content)) by lia.
  induction (Z.to_nat (width - 4 - visibleLength content)) as [|n IH];
    simpl; [reflexivity | now rewrite IH].
Qed.

(** X4: what a row of a box shows is a side, a space, the padded
    content without its colour codes, a space and a side; it is [width]
    characters wide whenever the content fits, and four more than the
    content otherwise. *)
Theorem drawRow_visible (content : text) (width : Z) :
  stripAnsi (drawRow content width)
  = [vertical; space] ++ stripAnsi (pad content width) ++ [space; vertical]
  /\ visibleLength (drawRow content width)
     = Z.max width (visibleLength content + 4).
Proof.
  assert (Hrow : stripAnsi (drawRow content width)
                 = [vertical; space] ++ stripAnsi (pad content width)
                     ++ [space; vertical]).
  { unfold drawRow.
    rewrite (stripAnsi_style style_box) by (simpl; tauto).
    change ([vertical; space] ++ style_reset ++ pad content width ++ style_box
              ++ [space; vertical] ++ style_reset)
      with (vertical :: space :: style_reset ++ pad content width ++ style_box
              ++ [space; vertical] ++ style_reset).
    rewrite !stripAnsi_step. cbn [escape_at N.eqb vertical space ESC andb].
    rewrite (stripAnsi_style style_reset) by (simpl; tauto).
    rewrite stripAnsi_app by reflexivity.
    rewrite (stripAnsi_style style_box) by (simpl; tauto).
    reflexivity. }
  split; [exact Hrow|].
  unfold visibleLength at 1. rewrite Hrow, stripAnsi_pad.
  rewrite !List.length_app.
  destruct (repeat_space_plain (Z.to_nat (width - 4 - visibleLength content)))
    as [_ [_ ->]].
  unfold visibleLength. simpl List.length. lia.
Qed.

(** X5: [drawLine] fails with the range error exactly when the
    width is below two.  Otherwise, for pieces free of escape characters,
    the line shows its start, the filling character [width - 2] times and
    its end, which is [width] characters when each piece is one
    character, as with the corners and the dash of the two boxes. *)
Theorem drawLine_visible (start end_ char : text) (width : Z)
    (Hstart : ~ In ESC start) (Hend : ~ In ESC end_) (Hchar : ~ In ESC char) :
  (drawLine start end_ width char = None <-> (width < 2)%Z)
  /\ (forall line,
        drawLine start end_ width char = Some line ->
        stripAnsi line = start ++ repeat_text char (Z.to_nat (width - 2)) ++ end_
        /\ (List.length start = 1%nat -> List.length end_ = 1%nat ->
            List.length char = 1%nat -> visibleLength line = width)).
Proof.
  unfold drawLine. split.
  - destruct (Z.ltb_spec (width - 2) 0); split; intros H'; try lia;
      try reflexivity; discriminate H'.
  - destruct (Z.ltb_spec (width - 2) 0) as [|Hw]; [discriminate|].
    intros line Hline. injection Hline as <-.
    assert (Hshown :
      stripAnsi (style_box ++ start ++ repeat_text char (Z.to_nat (width - 2))
                   ++ end_ ++ style_reset)
      = start ++ repeat_text char (Z.to_nat (width - 2)) ++ end_).
    { rewrite (stripAnsi_style style_box) by (simpl; tauto).
      replace (start ++ repeat_text char (Z.to_nat (width - 2)) ++ end_ ++ style_reset)
        with ((start ++ repeat_text char (Z.to_nat (width - 2)) ++ end_) ++ style_reset)
        by (now rewrite <- !app_assoc).
      rewrite stripAnsi_app by reflexivity.
      rewrite stripAnsi_plain.
      - change (stripAnsi style_reset) with (@nil N). apply app_nil_r.
      - intros H. apply in_app_or in H as [H|H]; [tauto|].
        apply in_app_or in H as [H|H]; [|tauto].
        exact (repeat_text_plain char _ Hchar H). }
    split; [exact Hshown|].
    intros H1 H2 H3.
    change (Z.of_nat
              (List.length
                 (stripAnsi
                    (style_box ++ start ++ repeat_text char (Z.to_nat (width - 2))
                       ++ end_ ++ style_reset))) = width).
    rewrite Hshown.
    rewrite !List.length_app, repeat_text_length, H1, H2, H3. lia.
Qed.

Lemma drawLine_visible_witness :
  (drawLine [9581%N] [9582%N] INFO_BOX_WIDTH [horizontal] = None
   <-> (INFO_BOX_WIDTH < 2)%Z)
  /\ (forall line,
        drawLine [9581%N] [9582%N] INFO_BOX_WIDTH [horizontal] = Some line ->
        stripAnsi line
        = [9581%N] ++ repeat_text [horizontal] (Z.to_nat (INFO_BOX_WIDTH - 2))
            ++ [9582%N]
        /\ (List.length [9581%N] = 1%nat -> List.length [9582%N] = 1%nat ->
            List.length [horizontal] = 1%nat -> visibleLength line = INFO_BOX_WIDTH)).
Proof.
  apply (drawLine_visible [9581%N] [9582%N] [horizontal] INFO_BOX_WIDTH);
    simpl; intros [H|[]]; discriminate H.
Defined.

End Boxes.

(** ** More on the pattern *)

Section PatternMore.

Local Open Scope string_scope.

Lemma lowerChar_facts (c : ascii) :
  isHexChar (lowerChar c) = isHexChar c /\ lowerChar (lowerChar c) = lowerChar c.
Proof. destruct c as [[] [] [] [] [] [] [] []]; split; reflexivity. Qed.

Lemma toLowerCase_length (s : string) :
  String.length (toLowerCase s) = String.length s.
Proof. induction s as [|c s IH]; simpl; [reflexivity | now rewrite IH]. Qed.

Lemma toLowerCase_app (s t : string) :
  toLowerCase (s ++ t) = toLowerCase s ++ toLowerCase t.
Proof. induction s as [|c s IH]; simpl; [reflexivity | now rewrite IH]. Qed.

Lemma toLowerCase_idem (s : string) : toLowerCase (toLowerCase s) = toLowerCase s.
Proof.
  induction s as [|c s IH]; simpl; [reflexivity|].
  now rewrite IH, (proj2 (lowerChar_facts c)).
Qed.

Lemma allHex_toLowerCase (s : string) : allHex (toLowerCase s) = allHex s.
Proof.
  induction s as [|c s IH]; simpl; [reflexivity|].
  now rewrite IH, (proj1 (lowerChar_facts c)).
Qed.

Lemma testHex_toLowerCase (s : string) : testHex (toLowerCase s) = testHex s.
Proof.
  unfold testHex. rewrite allHex_toLowerCase. now destruct s.
Qed.

Lemma app_empty (a b : string) : a ++ b = "" <-> a = "" /\ b = "".
Proof.
  split.
  - destruct a; simpl; [now split | discriminate].
  - now intros [-> ->].
Qed.

Lemma build_cases (a b : string) (cs : bool) :
  build a b cs =
  if falsy (a ++ b) then inl Empty
  else if testHex (a ++ b)
       then inr (mkPatternSpec
                   (mkWorkerData (if cs then a else toLowerCase a)
                      (if cs then b else toLowerCase b) cs)
                   (String.length a + String.length b))
       else inl InvalidHex.
Proof.
  destruct (build a b cs) as [e|p] eqn:Hb.
  - unfold build in Hb.
    destruct (falsy (a ++ b)); [exact (eq_sym Hb)|].
    destruct (testHex (a ++ b)); [discriminate Hb | exact (eq_sym Hb)].
  - destruct (strip_never_fires a b cs p Hb) as [Hp Hs].
    unfold build in Hb.
    destruct (falsy (a ++ b)); [discriminate Hb|].
    destruct (testHex (a ++ b)); [|discriminate Hb].
    simpl in Hb. injection Hb as <-. simpl in Hp, Hs.
    rewrite Hp. f_equal. f_equal.
    destruct cs; now rewrite ?toLowerCase_length.
Qed.

(** X6: the construction of the pattern succeeds exactly when the
    prefix followed by the suffix is not empty and holds hexadecimal
    digits only; it fails with the empty pattern error exactly when both
    are empty. *)
Theorem build_succeeds_iff (a b : string) (cs : bool) :
  ((exists p, build a b cs = inr p) <->
     (a ++ b <> ""
      /\ forall c, In c (list_ascii_of_string (a ++ b)) -> In c hexDigits))
  /\ (build a b cs = inl Empty <-> a = "" /\ b = "").
Proof.
  rewrite build_cases. unfold testHex.
  destruct (falsy (a ++ b)) eqn:Hf.
  - apply falsy_true_iff in Hf. split.
    + split; [intros [p H]; discriminate H | intros [H _]; contradiction].
    + split; [intros _; now apply app_empty | reflexivity].
  - apply falsy_false_iff in Hf. simpl. split.
    + destruct (allHex (a ++ b)) eqn:Ha.
      * split; [|eauto]. intros _. split; [exact Hf|].
        intros c Hc. apply isHexChar_iff. exact (proj1 (allHex_iff _) Ha c Hc).
      * split; [intros [p H]; discriminate H|].
        intros [_ Hall]. exfalso.
        assert (allHex (a ++ b) = true); [|congruence].
        apply allHex_iff. intros c Hc. apply isHexChar_iff. now apply Hall.
    + split.
      * destruct (allHex (a ++ b)); discriminate.
      * intros H. apply app_empty in H. contradiction.
Qed.

(** X7: a pattern that is accepted is stored as it was given, lower
    cased unless the search is case sensitive and otherwise untouched;
    the exponent of the difficulty is the number of characters given;
    what is stored holds hexadecimal digits only and, unless the search
    is case sensitive, no upper case letter. *)
Theorem build_stores_normalised (a b : string) (cs : bool) (p : PatternSpec)
    (Hbuild : build a b cs = inr p) :
  data p = mkWorkerData (if cs then a else toLowerCase a)
             (if cs then b else toLowerCase b) cs
  /\ totalHexChars p = String.length a + String.length b
  /\ allHex (prefix (data p)) = true
  /\ allHex (suffix (data p)) = true
  /\ (cs = false ->
      toLowerCase (prefix (data p)) = prefix (data p)
      /\ toLowerCase (suffix (data p)) = suffix (data p)).
Proof.
  rewrite build_cases in Hbuild.
  destruct (falsy (a ++ b)); [discriminate Hbuild|].
  destruct (testHex (a ++ b)) eqn:Ht; [|discriminate Hbuild].
  injection Hbuild as <-. simpl.
  unfold testHex in Ht. apply andb_true_iff in Ht as [_ Ha].
  rewrite allHex_app in Ha. apply andb_true_iff in Ha as [Ha Hb].
  split; [reflexivity|]. split; [reflexivity|].
  split; [destruct cs; now rewrite ?allHex_toLowerCase|].
  split; [destruct cs; now rewrite ?allHex_toLowerCase|].
  intros ->. split; apply toLowerCase_idem.
Qed.

Lemma build_stores_normalised_witness :
  data (mkPatternSpec (mkWorkerData "cafe" "8b" false) 6)
  = mkWorkerData (if false then "CaFe" else toLowerCase "CaFe")
      (if false then "8B" else toLowerCase "8B") false
  /\ totalHexChars (mkPatternSpec (mkWorkerData "cafe" "8b" false) 6)
     = String.length "CaFe" + String.length "8B"
  /\ allHex (prefix (data (mkPatternSpec (mkWorkerData "cafe" "8b" false) 6))) = true
  /\ allHex (suffix (data (mkPatternSpec (mkWorkerData "cafe" "8b" false) 6))) = true
  /\ (false = false ->
      toLowerCase (prefix (data (mkPatternSpec (mkWorkerData "cafe" "8b" false) 6)))
      = prefix (data (mkPatternSpec (mkWorkerData "cafe" "8b" false) 6))
      /\ toLowerCase (suffix (data (mkPatternSpec (mkWorkerData "cafe" "8b" false) 6)))
         = suffix (data (mkPatternSpec (mkWorkerData "cafe" "8b" false) 6))).
Proof.
  apply (build_stores_normalised "CaFe" "8B" false). reflexivity.
Defined.

(** X8: when the search is not case sensitive, the case in which
    the pattern is typed makes no difference at all: the pattern and its
    lower cased form are accepted or refused alike and give the same
    search. *)
Theorem build_ignores_pattern_case (a b : string) :
  build a b false = build (toLowerCase a) (toLowerCase b) false.
Proof.
  rewrite !build_cases, <- toLowerCase_app, testHex_toLowerCase.
  rewrite !toLowerCase_idem, !toLowerCase_length.
  now destruct (a ++ b).
Qed.

(** X9: an address can only match if it has room for the pattern:
    it is at least two characters longer than a prefix that is asked for,
    and at least as long as the suffix.  A prefix of more than forty
    digits is therefore matched by no address of forty-two characters. *)
Theorem match_needs_room (w : WorkerData) (account : Account)
    (Hmatch : isMatch w account = true) :
  (prefix w = "" \/ String.length (prefix w) + 2 <= String.length (address account))
  /\ String.length (suffix w) <= String.length (address account).
Proof.
  assert (Hlen : String.length (addr_of w account) = String.length (address account))
    by (unfold addr_of; destruct (isCaseSensitive w);
        now rewrite ?toLowerCase_length).
  unfold isMatch, isPrefixMatch, isSuffixMatch in Hmatch.
  apply andb_true_iff in Hmatch as [Hp Hs].
  apply orb_true_iff in Hp. apply orb_true_iff in Hs.
  rewrite <- Hlen. split.
  - destruct Hp as [Hp|Hp]; [left; now apply falsy_true_iff|right].
    apply startsWith_iff in Hp as [rest ->].
    rewrite !string_length_app. simpl. lia.
  - destruct Hs as [Hs|Hs].
    + apply falsy_true_iff in Hs. rewrite Hs. simpl. lia.
    + apply endsWith_iff in Hs as [front ->].
      rewrite string_length_app. lia.
Qed.

Lemma match_needs_room_witness :
  (prefix Sample.w_ab = ""
   \/ String.length (prefix Sample.w_ab) + 2 <= String.length (address Sample.hit1))
  /\ String.length (suffix Sample.w_ab) <= String.length (address Sample.hit1).
Proof.
  apply (match_needs_room Sample.w_ab Sample.hit1). reflexivity.
Defined.

End PatternMore.

(** ** More on the worker loop *)

Section WorkerMore.

Variable w : WorkerData.

Lemma filter_tick_iteration (localCount : Z) (account : Account) :
  filter is_tick (fst (iteration w localCount account))
  = if (Z.rem (localCount + 1) BATCH_SIZE =? 0)%Z then [tick BATCH_SIZE] else [].
Proof.
  rewrite iteration_eq. cbn [fst]. rewrite filter_app.
  destruct (isMatch w account);
    destruct (Z.rem (localCount + 1) BATCH_SIZE =? 0)%Z; reflexivity.
Qed.

Lemma next_count (localCount : Z) (account : Account) :
  (0 <= localCount < BATCH_SIZE)%Z ->
  snd (iteration w localCount account)
  = (if (localCount + 1 =? BATCH_SIZE)%Z then 0 else localCount + 1)%Z
  /\ (0 <= snd (iteration w localCount account) < BATCH_SIZE)%Z.
Proof.
  intros H. rewrite iteration_eq. cbn [snd].
  rewrite batch_boundary by exact H. unfold BATCH_SIZE in *.
  destruct (Z.eqb_spec (localCount + 1) 2000); split; (reflexivity || lia).
Qed.

(** The ticks and the counter of any run started inside a batch. *)
Lemma worker_ticks (accounts : list Account) :
  forall localCount : Z,
    (0 <= localCount < BATCH_SIZE)%Z ->
    filter is_tick (fst (worker w localCount accounts))
    = repeat (tick BATCH_SIZE)
        (Z.to_nat ((localCount + Z.of_nat (List.length accounts)) / BATCH_SIZE))
    /\ snd (worker w localCount accounts)
       = ((localCount + Z.of_nat (List.length accounts)) mod BATCH_SIZE)%Z.
Proof.
  induction accounts as [|a rest IH]; intros localCount Hlc.
  - simpl. rewrite Z.add_0_r, Z.div_small, Z.mod_small by exact Hlc. now split.
  - rewrite worker_cons. cbn [fst snd].
    rewrite filter_app, filter_tick_iteration.
    destruct (next_count localCount a Hlc) as [Hnext Hrange].
    destruct (IH _ Hrange) as [IHt IHc]. rewrite IHt, IHc, Hnext.
    rewrite batch_boundary by exact Hlc.
    set (n := Z.of_nat (List.length rest)).
    replace (Z.of_nat (List.length (a :: rest))) with (1 + n)%Z
      by (simpl List.length; lia).
    unfold BATCH_SIZE in *.
    destruct (Z.eqb_spec (localCount + 1) 2000) as [Hfull|Hpart].
    + replace (localCount + (1 + n))%Z with (0 + n + 1 * 2000)%Z by lia.
      rewrite Z.div_add, Z.mod_add by lia.
      assert (0 <= (0 + n) / 2000)%Z by (apply Z.div_pos; lia).
      replace (Z.to_nat ((0 + n) / 2000 + 1)) with (S (Z.to_nat ((0 + n) / 2000)))
        by lia.
      now split.
    + replace (localCount + 1 + n)%Z with (localCount + (1 + n))%Z by lia.
      now split.
Qed.

(** Every [found] message of a run started inside a batch. *)
Lemma worker_found (accounts : list Account) :
  forall (localCount : Z) (a p : string) (n : Z),
    (0 <= localCount < BATCH_SIZE)%Z ->
    In (found a p n) (fst (worker w localCount accounts)) ->
    exists before account after,
      accounts = before ++ account :: after
      /\ isMatch w account = true
      /\ a = address account /\ p = pk account
      /\ n = ((localCount + Z.of_nat (List.length before)) mod BATCH_SIZE + 1)%Z.
Proof.
  induction accounts as [|x rest IH]; intros localCount a p n Hlc Hin;
    [destruct Hin|].
  rewrite worker_cons in Hin. cbn [fst] in Hin.
  apply in_app_or in Hin as [Hin|Hin].
  - destruct (found_in_iteration w _ _ _ Hin eq_refl) as [Hm Heq].
    injection Heq as -> -> ->.
    exists [], x, rest. repeat split; try assumption.
    simpl. rewrite Z.add_0_r, Z.mod_small by exact Hlc. reflexivity.
  - destruct (next_count localCount x Hlc) as [Hnext Hrange].
    destruct (IH _ _ _ _ Hrange Hin)
      as (before & account & after & -> & Hm & -> & -> & ->).
    exists (x :: before), account, after. repeat split; try assumption.
    f_equal. rewrite Hnext.
    replace (Z.of_nat (List.length (x :: before)))
      with (1 + Z.of_nat (List.length before))%Z by (simpl List.length; lia).
    unfold BATCH_SIZE in *.
    destruct (Z.eqb_spec (localCount + 1) 2000) as [Hfull|Hpart].
    + replace (localCount + (1 + Z.of_nat (List.length before)))%Z
        with (0 + Z.of_nat (List.length before) + 1 * 2000)%Z by lia.
      now rewrite Z.mod_add by lia.
    + f_equal. lia.
Qed.

End WorkerMore.

Section WorkerAccounting.

(** X10: matches do not disturb the count.  Whatever the accounts
    of a run of [n] turns are, matching or not, the worker posts
    [floor (n / 2000)] ticks of 2000 and holds [n mod 2000] in its
    counter, so the turns it has made are the turns its ticks report
    plus what the counter holds. *)
Theorem worker_tick_accounting (w : WorkerData) (accounts : list Account) :
  filter is_tick (fst (worker w 0 accounts))
  = repeat (tick 2000) (Z.to_nat (Z.of_nat (List.length accounts) / 2000))
  /\ snd (worker w 0 accounts) = (Z.of_nat (List.length accounts) mod 2000)%Z
  /\ (2000 * Z.of_nat (List.length (filter is_tick (fst (worker w 0 accounts))))
      + snd (worker w 0 accounts))%Z
     = Z.of_nat (List.length accounts).
Proof.
  destruct (worker_ticks w accounts 0%Z) as [Ht Hc];
    [unfold BATCH_SIZE; lia|].
  rewrite Z.add_0_l in Ht, Hc. unfold BATCH_SIZE in *.
  split; [exact Ht|]. split; [exact Hc|].
  rewrite Ht, Hc, repeat_length.
  assert (0 <= Z.of_nat (List.length accounts) / 2000)%Z
    by (apply Z.div_pos; lia).
  pose proof (Z.div_mod (Z.of_nat (List.length accounts)) 2000). lia.
Qed.

(** X11: every [found] message of a run comes from an account of
    the run that matches, carries the address and the key of that
    account, and counts the attempts of the batch the account falls in:
    its position in the run modulo 2000, plus one, a number from 1 to
    2000. *)
Theorem found_attempts_in_batch
    (w : WorkerData) (accounts : list Account) (a p : string) (n : Z)
    (Hin : In (found a p n) (fst (worker w 0 accounts))) :
  (1 <= n <= 2000)%Z
  /\ exists before account after,
       accounts = before ++ account :: after
       /\ isMatch w account = true
       /\ a = address account /\ p = pk account
       /\ n = (Z.of_nat (List.length before) mod 2000 + 1)%Z.
Proof.
  destruct (worker_found w accounts 0%Z a p n) as
    (before & account & after & Heq & Hm & Ha & Hp & Hn);
    [unfold BATCH_SIZE; lia | exact Hin |].
  rewrite Z.add_0_l in Hn. unfold BATCH_SIZE in Hn.
  split.
  - pose proof (Z.mod_pos_bound (Z.of_nat (List.length before)) 2000). lia.
  - now exists before, account, after.
Qed.

Lemma found_attempts_in_batch_witness :
  (1 <= 2 <= 2000)%Z
  /\ exists before account after,
       [Sample.miss; Sample.hit1] = before ++ account :: after
       /\ isMatch Sample.w_ab account = true
       /\ address Sample.hit1 = address account /\ pk Sample.hit1 = pk account
       /\ 2%Z = (Z.of_nat (List.length before) mod 2000 + 1)%Z.
Proof.
  apply (found_attempts_in_batch Sample.w_ab [Sample.miss; Sample.hit1]
           (address Sample.hit1) (pk Sample.hit1) 2).
  simpl. now left.
Defined.

End WorkerAccounting.

(** ** More on the main thread's handler *)

Section CoordinatorMore.

Variable startTime : Z.

Lemma drain_total (arrivals : list (Z * Message)) :
  forall st, exited st = None ->
    totalCount (drain true startTime arrivals st)
    = (totalCount st
       + sumZ (List.map (fun a => msg_count (snd a)) (handled arrivals)))%Z.
Proof.
  induction arrivals as [|[now msg] rest IH]; intros st Hex; simpl.
  - lia.
  - rewrite Hex. destruct msg as [a p n|count].
    + rewrite (drain_exited startTime true rest _ 0%Z) by reflexivity.
      simpl. lia.
    + destruct (on_message_tick startTime now count st) as [He _].
      rewrite IH by (now rewrite He).
      simpl. destruct (100 <? now - lastLog st)%Z; simpl; lia.
Qed.

Lemma drain_total_off (arrivals : list (Z * Message)) :
  forall st, exited st = None ->
    totalCount (drain false startTime arrivals st)
    = (totalCount st
       + sumZ (List.map (fun a => msg_count (snd a))
                 (handled_off (lastLog st) arrivals)))%Z.
Proof.
  induction arrivals as [|[now msg] rest IH]; intros st Hex; simpl.
  - lia.
  - rewrite Hex. destruct msg as [a p n|count].
    + rewrite (drain_exited startTime false rest _ 1%Z) by reflexivity.
      simpl. lia.
    + cbn [on_message is_found orb].
      destruct (100 <? now - lastLog st)%Z.
      * rewrite (drain_exited startTime false rest _ 1%Z) by reflexivity.
        simpl. lia.
      * rewrite IH by exact Hex. simpl. lia.
Qed.

Lemma spaced_snoc (gap x : Z) (times : list Z) :
  spaced gap times ->
  (times = [] \/ gap < x - last times 0)%Z ->
  spaced gap (times ++ [x]).
Proof.
  induction times as [|t1 rest IH]; intros Hs Hlast; [exact I|].
  destruct rest as [|t2 rest'].
  - simpl. destruct Hlast as [Hnil|Hgap]; [discriminate Hnil|].
    simpl in Hgap. now split.
  - destruct Hs as [Hgap Hrest].
    change ((t1 :: t2 :: rest') ++ [x]) with (t1 :: t2 :: (rest' ++ [x])).
    split; [exact Hgap|].
    apply IH; [exact Hrest|].
    right. destruct Hlast as [Hnil|Hl]; [discriminate Hnil | exact Hl].
Qed.

Lemma progress_times_app (xs ys : list Output) :
  progress_times (xs ++ ys) = progress_times xs ++ progress_times ys.
Proof. apply flat_map_app. Qed.

Lemma on_message_throttled (isTTY : bool) (now : Z) (msg : Message) (st : Main) :
  throttled startTime st ->
  throttled startTime (on_message isTTY startTime now msg st).
Proof.
  intros [Hs Hl].
  destruct isTTY; destruct msg as [a p n|count]; unfold throttled; simpl;
    try (now split).
  - rewrite progress_times_app. simpl. rewrite app_nil_r. now split.
  - destruct (Z.ltb_spec 100 (now - lastLog st)) as [Hgap|_]; simpl;
      [|now split].
    rewrite progress_times_app. simpl. split.
    + apply spaced_snoc; [exact Hs|].
      destruct Hl as [Hnil|Hl]; [now left | right; lia].
    + right. now rewrite last_last.
  - destruct (100 <? now - lastLog st)%Z; simpl; now split.
Qed.

Lemma drain_throttled (isTTY : bool) (arrivals : list (Z * Message)) :
  forall st,
    throttled startTime st ->
    throttled startTime (drain isTTY startTime arrivals st).
Proof.
  induction arrivals as [|[now msg] rest IH]; intros st Hst; simpl;
    [exact Hst|].
  destruct (exited st); [exact Hst|].
  apply IH. now apply on_message_throttled.
Qed.

Lemma handled_no_found (arrivals : list (Z * Message)) :
  no_found arrivals -> handled arrivals = arrivals.
Proof.
  induction arrivals as [|[now msg] rest IH]; intros Hno; [reflexivity|].
  simpl. rewrite (Hno (now, msg) (or_introl eq_refl) : is_found msg = false).
  f_equal. apply IH. intros a Ha. apply Hno. now right.
Qed.

Lemma sumZ_repeat_tick (n : nat) :
  sumZ (List.map msg_count (repeat (tick BATCH_SIZE) n)) = (2000 * Z.of_nat n)%Z.
Proof.
  induction n as [|n IH]; [reflexivity|].
  cbn [repeat List.map sumZ fold_right msg_count]. fold (sumZ (List.map msg_count (repeat (tick BATCH_SIZE) n))).
  rewrite IH. unfold BATCH_SIZE. lia.
Qed.

End CoordinatorMore.

Section CoordinatorTotals.

(** X12: the total the main thread holds is the sum of the counts
    of the messages it has handled.  On a terminal these are every tick
    up to the first match, and the attempts of that match.  Without a
    terminal they are the messages up to the first one at which the
    handler goes to write and the process dies: a [found] message, or a
    tick more than 100 ms after the initial [lastLog] of 0.  Nothing
    that arrives later is counted. *)
Theorem total_is_sum_of_handled (startTime : Z) (arrivals : list (Z * Message)) :
  totalCount (drain true startTime arrivals main_init)
  = sumZ (List.map (fun a => msg_count (snd a)) (handled arrivals))
  /\ totalCount (drain false startTime arrivals main_init)
     = sumZ (List.map (fun a => msg_count (snd a)) (handled_off 0 arrivals)).
Proof.
  split.
  - now rewrite drain_total.
  - now rewrite drain_total_off.
Qed.

(** X13: the status line is not written more often than every
    hundred milliseconds: between two writes, in whatever order and at
    whatever clock readings the messages come, more than 100 ms of the
    clock have passed; this on a terminal and, where nothing is written
    at all, without one. *)
Theorem progress_lines_spaced
    (isTTY : bool) (startTime : Z) (arrivals : list (Z * Message)) :
  spaced 100 (progress_times (printed (drain isTTY startTime arrivals main_init))).
Proof.
  apply (drain_throttled startTime isTTY arrivals main_init).
  split; [exact I | now left].
Qed.

(** X14: a single worker and the main thread together, on a
    terminal.  When the first matching account of the worker is the one
    after [before], the success box is made from that account's address
    and key and from a total count that is the number of keys the worker
    has generated, [length before + 1] (the number that [formatNum] then
    abbreviates for the box), whatever the clock readings and whatever
    the worker posts afterwards. *)
Theorem single_worker_scanned_exact (startTime : Z)
    (w : WorkerData) (before after : list Account) (account : Account)
    (arrivals : list (Z * Message))
    (Hmiss : forall a, In a before -> isMatch w a = false)
    (Hmatch : isMatch w account = true)
    (Hposted : List.map snd arrivals
               = fst (worker w 0 (before ++ account :: after))) :
  totalCount (drain true startTime arrivals main_init)
  = (Z.of_nat (List.length before) + 1)%Z
  /\ exists now,
       In now (List.map fst arrivals)
       /\ filter is_on_found (printed (drain true startTime arrivals main_init))
          = [on_found (address account) (pk account) (now - startTime)
               (Z.of_nat (List.length before) + 1)].
Proof.
  rewrite worker_app, worker_cons, iteration_eq, Hmatch in Hposted.
  rewrite (worker_no_match w before Hmiss 0%Z) in Hposted
    by (unfold BATCH_SIZE; lia).
  cbn [fst snd] in Hposted. rewrite Z.add_0_l in Hposted.
  rewrite <- !app_assoc in Hposted. cbn [app] in Hposted.
  set (k := Z.of_nat (List.length before)) in *.
  apply map_eq_app in Hposted as (ticks & rest & -> & Hticks & Hrest).
  apply map_eq_cons in Hrest as ([now msg] & later & -> & Hmsg & _).
  simpl in Hmsg. subst msg.
  assert (Hno : no_found ticks).
  { intros a Ha. unfold found_arrival.
    assert (Hin : In (snd a) (List.map snd ticks)) by now apply in_map.
    rewrite Hticks in Hin. apply repeat_spec in Hin. now rewrite Hin. }
  assert (Htotal : (totalCount (drain true startTime ticks main_init)
                    + (k mod BATCH_SIZE + 1) = k + 1)%Z).
  { rewrite drain_total by reflexivity.
    rewrite (handled_no_found ticks Hno), <- (List.map_map snd msg_count), Hticks.
    rewrite sumZ_repeat_tick. cbn [totalCount main_init].
    assert (0 <= k / BATCH_SIZE)%Z by (apply Z.div_pos; unfold BATCH_SIZE; lia).
    rewrite Z2Nat.id by assumption.
    unfold BATCH_SIZE in *. pose proof (Z.div_mod k 2000). lia. }
  rewrite (drain_first_found startTime ticks later now _ _ _ Hno main_init eq_refl).
  cbn [on_message totalCount printed].
  split; [exact Htotal|].
  exists now. split.
  - rewrite List.map_app. apply in_or_app. right. now left.
  - destruct (drain_ticks startTime ticks Hno main_init eq_refl) as [_ Hp].
    rewrite filter_app, Hp. cbn [printed main_init filter app is_on_found].
    now rewrite Htotal.
Qed.

Lemma single_worker_scanned_exact_witness :
  totalCount
    (drain true Sample.t0
       [(Sample.t0 + 7, found (address Sample.hit1) (pk Sample.hit1) 2);
        (Sample.t0 + 9, found (address Sample.hit2) (pk Sample.hit2) 3)]%Z
       main_init)
  = (Z.of_nat (List.length [Sample.miss]) + 1)%Z
  /\ exists now,
       In now (List.map fst [(Sample.t0 + 7, found (address Sample.hit1) (pk Sample.hit1) 2);
                             (Sample.t0 + 9, found (address Sample.hit2) (pk Sample.hit2) 3)]%Z)
       /\ filter is_on_found
            (printed (drain true Sample.t0
                        [(Sample.t0 + 7, found (address Sample.hit1) (pk Sample.hit1) 2);
                         (Sample.t0 + 9, found (address Sample.hit2) (pk Sample.hit2) 3)]%Z
                        main_init))
          = [on_found (address Sample.hit1) (pk Sample.hit1) (now - Sample.t0)
               (Z.of_nat (List.length [Sample.miss]) + 1)].
Proof.
  apply (single_worker_scanned_exact Sample.t0 Sample.w_ab [Sample.miss] [Sample.hit2]
           Sample.hit1).
  - intros a [<-|[]]. reflexivity.
  - reflexivity.
  - reflexivity.
Defined.

End CoordinatorTotals.

(** ** The command line *)

Section CommandLine.

Variable cpus : Z.
Variable parseInt : string -> JsInt.

Local Open Scope string_scope.

Lemma args_length_ind (P : list string -> Prop) :
  (forall args,
      (forall shorter, (List.length shorter < List.length args)%nat -> P shorter) ->
      P args) ->
  forall args, P args.
Proof.
  intros Hstep args.
  assert (H : forall n shorter, (List.length shorter < n)%nat -> P shorter).
  { induction n as [|n IH]; intros shorter Hs; [lia|].
    apply Hstep. intros s' Hs'. apply IH. lia. }
  apply (H (S (List.length args))). lia.
Qed.

Lemma is_opt_true (arg long short : string) :
  is_opt arg long short = true <-> arg = long \/ arg = short.
Proof.
  unfold is_opt. rewrite orb_true_iff, !String.eqb_eq. reflexivity.
Qed.

Lemma is_opt_unknown (arg long short : string) :
  ~ In arg options -> In long options -> In short options ->
  is_opt arg long short = false.
Proof.
  intros Hno Hl Hs.
  destruct (is_opt arg long short) eqn:H; [|reflexivity].
  apply is_opt_true in H as [->| ->]; contradiction.
Qed.

Lemma or_empty_in (v : string) (rest : list string) :
  or_empty (hd_error (v :: rest)) = v.
Proof. simpl. now destruct v. Qed.

Lemma parse_loop_turn (params : Params) (arg : string) (rest : list string) :
  parse_loop parseInt params (arg :: rest)
  = parse_loop parseInt (fst (turn parseInt params arg rest)) (snd (turn parseInt params arg rest)).
Proof.
  unfold turn. cbn [parse_loop].
  repeat match goal with
         | |- context [if is_opt ?a ?l ?s then _ else _] =>
             destruct (is_opt a l s)
         end;
    try reflexivity; destruct rest; reflexivity.
Qed.

Lemma turn_shorter (params : Params) (arg : string) (rest : list string) :
  (List.length (snd (turn parseInt params arg rest)) <= List.length rest)%nat
  /\ (forall v, In v (snd (turn parseInt params arg rest)) -> In v rest).
Proof.
  unfold turn.
  repeat match goal with
         | |- context [if is_opt ?a ?l ?s then _ else _] =>
             destruct (is_opt a l s)
         end;
    cbn [snd]; destruct rest; simpl; split; auto; lia.
Qed.

(** A property of [params] that every turn keeps is kept by the loop. *)
Lemma parse_loop_invariant (all : list string) (Q : Params -> Prop) :
  (forall params arg rest,
      Q params -> In arg all -> (forall v, In v rest -> In v all) ->
      Q (fst (turn parseInt params arg rest))) ->
  forall remaining params,
    (forall v, In v remaining -> In v all) -> Q params ->
    Q (parse_loop parseInt params remaining).
Proof.
  intros Hturn remaining.
  induction remaining as [remaining IH] using args_length_ind.
  intros params Hsub HQ.
  destruct remaining as [|arg rest]; [exact HQ|].
  rewrite parse_loop_turn.
  destruct (turn_shorter params arg rest) as [Hlen Hin].
  apply IH.
  - simpl. lia.
  - intros v Hv. apply Hsub. right. now apply Hin.
  - apply Hturn; [exact HQ | apply Hsub; now left |].
    intros v Hv. apply Hsub. now right.
Qed.

Lemma parse_loop_unknown (remaining : list string) (params : Params) :
  (forall a, In a remaining -> ~ In a options) ->
  parse_loop parseInt params remaining = params.
Proof.
  induction remaining as [|arg rest IH]; intros Hno; [reflexivity|].
  rewrite parse_loop_turn. unfold turn.
  assert (Ha : ~ In arg options) by (apply Hno; now left).
  rewrite !is_opt_unknown by (try exact Ha; unfold options; simpl; tauto).
  cbn [fst snd]. apply IH. intros a H. apply Hno. now right.
Qed.

End CommandLine.

Ltac turn_cases :=
  unfold turn;
  repeat match goal with
         | |- context [if is_opt ?a ?l ?s then _ else _] =>
             let H := fresh "Hopt" in destruct (is_opt a l s) eqn:H
         end;
  cbn [fst par_prefix par_suffix par_caseSensitive par_threads
         isAutoThreads par_showHelp].

Section CommandLineClaims.

Local Open Scope string_scope.

(** X15: the help is shown, and the search made case sensitive,
    only when asked for: help only on an empty command line or on one
    that holds [--help] or [-h], case sensitivity only on one that holds
    [--case-sensitive] or [-c]. *)
Theorem flags_only_when_asked
    (cpus : Z) (parseInt : string -> JsInt) (args : list string) :
  (par_showHelp (parseArgs cpus parseInt args) = true ->
   args = [] \/ In "--help" args \/ In "-h" args)
  /\ (par_caseSensitive (parseArgs cpus parseInt args) = true ->
      In "--case-sensitive" args \/ In "-c" args).
Proof.
  destruct args as [|arg0 rest0]; [split; [now left | discriminate]|].
  set (all := arg0 :: rest0).
  assert (H : (par_showHelp (parse_loop parseInt (params_init cpus) all) = true ->
               In "--help" all \/ In "-h" all)
              /\ (par_caseSensitive (parse_loop parseInt (params_init cpus) all) = true ->
                  In "--case-sensitive" all \/ In "-c" all)).
  { apply (parse_loop_invariant parseInt all
             (fun params =>
                (par_showHelp params = true -> In "--help" all \/ In "-h" all)
                /\ (par_caseSensitive params = true ->
                    In "--case-sensitive" all \/ In "-c" all))).
    - intros params arg rest [Hh Hc] Harg _.
      turn_cases; try (now split);
        try (destruct (is_positive _); now split).
      + split; [exact Hh|]. intros _.
        apply is_opt_true in Hopt1 as [<-|<-]; tauto.
      + split; [|exact Hc]. intros _.
        apply is_opt_true in Hopt3 as [<-|<-]; tauto.
    - auto.
    - split; discriminate. }
  destruct H as [Hh Hc]. split; [|exact Hc].
  intros Hhelp. right. now apply Hh.
Qed.

(** X16: the values of the parsed command line come from the
    command line.  The prefix and the suffix are empty or are arguments;
    the number of threads is the number of processors, marked as chosen
    automatically, or else a positive number that [parseInt] read from
    an argument. *)
Theorem values_from_command_line
    (cpus : Z) (parseInt : string -> JsInt) (args : list string) :
  (par_prefix (parseArgs cpus parseInt args) = ""
   \/ In (par_prefix (parseArgs cpus parseInt args)) args)
  /\ (par_suffix (parseArgs cpus parseInt args) = ""
      \/ In (par_suffix (parseArgs cpus parseInt args)) args)
  /\ ((isAutoThreads (parseArgs cpus parseInt args) = true
       /\ par_threads (parseArgs cpus parseInt args) = JsFinite cpus)
      \/ (isAutoThreads (parseArgs cpus parseInt args) = false
          /\ is_positive (par_threads (parseArgs cpus parseInt args)) = true
          /\ exists v, In v args
                       /\ par_threads (parseArgs cpus parseInt args) = parseInt v)).
Proof.
  destruct args as [|arg0 rest0]; [simpl; tauto|].
  set (all := arg0 :: rest0).
  change (parseArgs cpus parseInt all)
    with (parse_loop parseInt (params_init cpus) all).
  apply (parse_loop_invariant parseInt all
           (fun params =>
              (par_prefix params = "" \/ In (par_prefix params) all)
              /\ (par_suffix params = "" \/ In (par_suffix params) all)
              /\ ((isAutoThreads params = true /\ par_threads params = JsFinite cpus)
                  \/ (isAutoThreads params = false
                      /\ is_positive (par_threads params) = true
                      /\ exists v, In v all /\ par_threads params = parseInt v)))).
  - intros params arg rest (Hp & Hs & Ht) _ Hrest.
    assert (Hval : or_empty (hd_error rest) = ""
                   \/ In (or_empty (hd_error rest)) all).
    { destruct rest as [|v rest']; [now left|].
      rewrite or_empty_in. right. apply Hrest. now left. }
    turn_cases; try (split; [|split]; assumption).
    destruct (is_positive (parse_threads parseInt (hd_error rest))) eqn:Hpos;
      [|split; [|split]; assumption].
    cbn [par_prefix par_suffix par_threads isAutoThreads].
    split; [exact Hp|]. split; [exact Hs|]. right.
    split; [reflexivity|]. split; [exact Hpos|].
    destruct rest as [|v rest']; [discriminate Hpos|].
    exists v. split; [apply Hrest; now left | reflexivity].
  - auto.
  - simpl. tauto.
Qed.

(** X17: a command line that is not empty and holds none of the
    ten option names sets nothing: the defaults stand, no pattern has
    been given, and the run ends with the empty pattern error before any
    worker is started. *)
Theorem unknown_arguments_ignored
    (cpus : Z) (parseInt : string -> JsInt) (args : list string)
    (Hsome : args <> [])
    (Hunknown : forall a, In a args -> ~ In a options) :
  parseArgs cpus parseInt args = params_init cpus
  /\ main_of_params (parseArgs cpus parseInt args) = Some (ExitError Empty).
Proof.
  assert (H : parseArgs cpus parseInt args = params_init cpus).
  { destruct args as [|a rest]; [contradiction|].
    unfold parseArgs. now apply parse_loop_unknown. }
  rewrite H. now split.
Qed.

Lemma unknown_arguments_ignored_witness :
  parseArgs 8 (fun _ => JsNaN) ["cafe"; "-x"] = params_init 8
  /\ main_of_params (parseArgs 8 (fun _ => JsNaN) ["cafe"; "-x"])
     = Some (ExitError Empty).
Proof.
  apply (unknown_arguments_ignored 8 (fun _ => JsNaN) ["cafe"; "-x"]).
  - discriminate.
  - intros a [<-|[<-|[]]] H; unfold options in H; simpl in H;
      repeat (destruct H as [H|H]; [discriminate H|]); exact H.
Defined.

(** X18: the usual call.  With a prefix and a suffix of
    hexadecimal digits given through [-p] and [-s], the main thread
    starts one worker for each processor, each of them searching for the
    lower cased prefix and suffix, case insensitively. *)
Theorem prefix_and_suffix_given
    (cpus : Z) (parseInt : string -> JsInt) (p s : string)
    (Hp : testHex p = true) (Hs : testHex s = true) :
  main_of_params (parseArgs cpus parseInt ["-p"; p; "-s"; s])
  = Some (Spawned
            (mkPatternSpec (mkWorkerData (toLowerCase p) (toLowerCase s) false)
               (String.length p + String.length s))
            (repeat (mkWorkerData (toLowerCase p) (toLowerCase s) false)
               (Z.to_nat cpus))).
Proof.
  assert (Hpne : or_empty (Some p) = p) by (simpl; now destruct p).
  assert (Hsne : or_empty (Some s) = s) by (simpl; now destruct s).
  unfold parseArgs, main_of_params. cbn [parse_loop is_opt String.eqb Ascii.eqb
    Bool.eqb orb hd_error params_init par_prefix par_suffix par_caseSensitive
    par_threads isAutoThreads par_showHelp].
  rewrite Hpne, Hsne, build_cases.
  assert (Hfull : testHex (p ++ s) = true).
  { unfold testHex in *. rewrite allHex_app.
    apply andb_true_iff in Hp as [Hpn Hpa]. apply andb_true_iff in Hs as [_ Hsa].
    rewrite Hpa, Hsa. destruct p; [discriminate Hpn | reflexivity]. }
  rewrite Hfull.
  assert (Hne : falsy (p ++ s) = false)
    by (destruct p; [discriminate Hp | reflexivity]).
  rewrite Hne. reflexivity.
Qed.

Lemma prefix_and_suffix_given_witness :
  main_of_params (parseArgs 8 (fun _ => JsNaN) ["-p"; "aBc"; "-s"; "999"])
  = Some (Spawned
            (mkPatternSpec (mkWorkerData (toLowerCase "aBc") (toLowerCase "999") false)
               (String.length "aBc" + String.length "999"))
            (repeat (mkWorkerData (toLowerCase "aBc") (toLowerCase "999") false)
               (Z.to_nat 8))).
Proof.
  apply (prefix_and_suffix_given 8 (fun _ => JsNaN) "aBc" "999"); reflexivity.
Defined.

End CommandLineClaims.

(** ** The text of the status line *)

Section StatusLine.

Local Open Scope float_scope.

(** Binary64 order: below a positive number stay the positive numbers of
    the same exponent and a smaller mantissa. *)
Lemma SFltb_smaller_mantissa (m1 m2 : positive) (e : Z) (x : spec_float) :
  (m2 < m1)%positive ->
  SFltb (S754_finite false m1 e) x = true ->
  SFltb (S754_finite false m2 e) x = true.
Proof.
  intros Hm. destruct x as [s|s| |s m' e']; try (intros H; exact H).
  unfold SFltb, SFcompare.
  destruct s; [intros H; exact H|].
  destruct (Z.compare e e'); try (intros H; exact H).
  change (Pos.compare_cont Eq m1 m') with (Pos.compare m1 m').
  change (Pos.compare_cont Eq m2 m') with (Pos.compare m2 m').
  destruct (Pos.compare_spec m1 m') as [H1|H1|H1]; try discriminate.
  intros _.
  destruct (Pos.compare_spec m2 m') as [H2|H2|H2]; [lia | reflexivity | lia].
Qed.

(** A number above the clamp of line 184 is above the threshold of line
    186. *)
Lemma above_clamp_above_threshold (p : float) :
  (0.9999 <? p) = true -> (0.999 <? p) = true.
Proof.
  rewrite !ltb_spec.
  change (Prim2SF 0.9999) with (S754_finite false 9006298534815518 (-53)).
  change (Prim2SF 0.999) with (S754_finite false 8998192055486251 (-53)).
  apply SFltb_smaller_mantissa. reflexivity.
Qed.

(** X19: the clamp of line 184 never shows.  Whatever number
    line 183 has computed, the text of the probability is the same with
    the clamp as without it: every number the clamp changes is already
    shown as ">99.99%". *)
Theorem clamp_never_shows (toFixed : float -> nat -> string) (p : float) :
  Stats.probStr toFixed (Stats.clamp p) = Stats.probStr toFixed p.
Proof.
  unfold Stats.clamp.
  destruct (0.9999 <? p) eqn:Hgt; [|reflexivity].
  unfold Stats.probStr.
  rewrite (above_clamp_above_threshold p Hgt).
  reflexivity.
Qed.

(** Binary64 order: a number that a positive number is not below, and
    that is a number, is at most that number. *)
Lemma SFleb_of_not_below (m : positive) (e : Z) (x : spec_float) :
  x <> S754_nan ->
  SFltb (S754_finite false m e) x = false ->
  SFleb x (S754_finite false m e) = true.
Proof.
  intros Hnan. destruct x as [s|s| |s m' e']; try contradiction;
    unfold SFltb, SFleb, SFcompare.
  - now destruct s.
  - destruct s; [reflexivity | discriminate].
  - destruct s; [reflexivity|].
    rewrite (Z.compare_antisym e e').
    destruct (Z.compare e e'); simpl; try reflexivity; try discriminate.
    change (Pos.compare_cont Eq m m') with (Pos.compare m m').
    change (Pos.compare_cont Eq m' m) with (Pos.compare m' m).
    rewrite (Pos.compare_antisym m m').
    destruct (Pos.compare m m'); simpl; try reflexivity; discriminate.
Qed.

Lemma clamp_at_most (p : float) :
  (0.999 <? Stats.clamp p) = true -> (Stats.clamp p <=? 0.9999) = true.
Proof.
  unfold Stats.clamp.
  destruct (0.9999 <? p) eqn:Hgt; [reflexivity|].
  intros Hlow. rewrite ltb_spec in Hgt, Hlow. rewrite leb_spec.
  change (Prim2SF 0.9999) with (S754_finite false 9006298534815518 (-53)) in *.
  apply SFleb_of_not_below; [|exact Hgt].
  intros Hnan. rewrite Hnan in Hlow.
  change (Prim2SF 0.999) with (S754_finite false 8998192055486251 (-53)) in Hlow.
  discriminate Hlow.
Qed.

(** C7 (where the program departs from it): the probability shown
    is not the clamped probability.  Whenever the clamped number of line
    184 is above 0.999 the status line reads ">99.99%", although that
    number is at most 0.9999: the text is shown only for probabilities
    that are not above 99.99%.  So it is after the first tick of a search
    for two hexadecimal digits (2000 keys, difficulty 256), for an engine
    whose [Math.exp (-7.8125)] is the binary64 number nearest to the
    exponential: the probability held is below 0.9996. *)
Theorem probability_text_overstates
    (Math_exp : float -> float) (toFixed : float -> nat -> string) :
  (forall totalCount difficulty : float,
      (0.999 <? Stats.prob Math_exp totalCount difficulty) = true ->
      (Stats.prob Math_exp totalCount difficulty <=? 0.9999) = true
      /\ Stats.probStr toFixed (Stats.prob Math_exp totalCount difficulty)
         = ">99.99%"%string)
  /\ (Math_exp (-7.8125) = 0x1.a84d1c4cc3094p-12 ->
      (Stats.prob Math_exp 2000 256 <? 0.9996) = true
      /\ Stats.probStr toFixed (Stats.prob Math_exp 2000 256) = ">99.99%"%string).
Proof.
  split.
  - intros totalCount difficulty Hlow. split.
    + now apply clamp_at_most.
    + unfold Stats.probStr. now rewrite Hlow.
  - intros Hexp. unfold Stats.prob, Stats.probStr.
    change (- (2000) / 256) with (-7.8125).
    rewrite Hexp. split; reflexivity.
Qed.

End StatusLine.
